(** * AI-BOT: chunking engine, retrieval engine and front end

    A shallow embedding of [CHUNK.py], [retrieval.py] and [bot.py], and the
    properties of the specification checked against it.

    Text.  A Python [str] is modelled as a list of 8-bit characters (the
    Latin-1 range of Unicode); [len] is [length].  Character classes follow
    Python's [str.isspace] / [str.isalpha] on that range.

    External services.  The two HTTP endpoints, [sklearn]'s similarity
    computation, [numpy]'s [argsort] (whose order on equal values is not
    specified) and the fixed instruction text of the prompt are parameters
    of the retrieval model. *)

From Stdlib Require Import Ascii String QArith DecimalString.
From stdpp Require Import base list strings gmap sorting.

Local Open Scope nat_scope.

(** ** Python string operations used by the sources *)

Module PyStr.

(** A Python [str]. *)
Abbreviation str := (list ascii).

(** A string literal of the source. *)
Definition lit (s : string) : str := list_ascii_of_string s.

Definition code (c : ascii) : nat := nat_of_ascii c.

Definition nl : ascii := ascii_of_nat 10.
Definition space : ascii := ascii_of_nat 32.

Definition between (lo hi n : nat) : bool := (lo <=? n) && (n <=? hi).

(** [str.isspace], also the class [\s] of [re] on [str] patterns and the
    characters removed by [str.strip()]. *)
Definition isspace (c : ascii) : bool :=
  let n := code c in
  between 9 13 n || between 28 32 n || (n =? 133) || (n =? 160).

(** [str.isalpha] on the Latin-1 range. *)
Definition isalpha (c : ascii) : bool :=
  let n := code c in
  between 65 90 n || between 97 122 n || (n =? 170) || (n =? 181) ||
  (n =? 186) || between 192 214 n || between 216 246 n || between 248 255 n.

(** The class [[a-z]]. *)
Definition is_az (c : ascii) : bool := between 97 122 (code c).

Definition lower_char (c : ascii) : ascii :=
  let n := code c in
  if between 65 90 n || between 192 214 n || between 216 222 n
  then ascii_of_nat (n + 32) else c.

(** Upper-casing, for ASCII letters: [title] is applied by the sources only
    to text matched by [[a-z\s]] classes and to the literal section
    markers. *)
Definition upper_char (c : ascii) : ascii :=
  let n := code c in
  if between 97 122 n then ascii_of_nat (n - 32) else c.

Definition is_cased (c : ascii) : bool :=
  let n := code c in between 65 90 n || between 97 122 n.

(** [s.lower()] *)
Definition lower (s : str) : str := map lower_char s.

Fixpoint title_from (prev_cased : bool) (s : str) : str :=
  match s with
  | [] => []
  | c :: s' =>
      if is_cased c
      then (if prev_cased then lower_char c else upper_char c) :: title_from true s'
      else c :: title_from false s'
  end.

(** [s.title()] *)
Definition title (s : str) : str := title_from false s.

Fixpoint lstrip (s : str) : str :=
  match s with
  | [] => []
  | c :: s' => if isspace c then lstrip s' else s
  end.

Definition rstrip (s : str) : str := reverse (lstrip (reverse s)).

(** [s.strip()] *)
Definition strip (s : str) : str := rstrip (lstrip s).

(** [s.split(sep)] for a one-character separator: always at least one
    piece. *)
Fixpoint split_char (sep : ascii) (s : str) : list str :=
  match s with
  | [] => [[]]
  | c :: s' =>
      if Ascii.eqb c sep then [] :: split_char sep s'
      else match split_char sep s' with
           | p :: ps => (c :: p) :: ps
           | [] => [[c]]
           end
  end.

(** [sep.join(l)] *)
Fixpoint join (sep : str) (l : list str) : str :=
  match l with
  | [] => []
  | x :: l' =>
      match l' with
      | [] => x
      | _ :: _ => x ++ sep ++ join sep l'
      end
  end.

(** [s.startswith(p)] *)
Fixpoint startswith (s p : str) : bool :=
  match p, s with
  | [], _ => true
  | _ :: _, [] => false
  | a :: p', b :: s' => Ascii.eqb a b && startswith s' p'
  end.

(** [sub in s] *)
Fixpoint contains (s sub : str) : bool :=
  startswith s sub ||
  match s with
  | [] => false
  | _ :: s' => contains s' sub
  end.

(** [a == b] on strings. *)
Definition str_eqb (a b : str) : bool := bool_decide (a = b).

(** Truthiness of a string or list: non-empty. *)
Definition truthy {A} (l : list A) : bool :=
  match l with [] => false | _ :: _ => true end.

(** The longest prefix of [s] whose characters satisfy [p], and the rest. *)
Fixpoint span (p : ascii -> bool) (s : str) : str * str :=
  match s with
  | [] => ([], [])
  | c :: s' =>
      if p c then let '(a, b) := span p s' in (c :: a, b) else ([], s)
  end.

(** Decimal rendering of a number inside an f-string. *)
Definition str_of_nat (n : nat) : str :=
  lit (NilZero.string_of_uint (Nat.to_uint n)).

(** Whitespace normalisation used to compare texts: all whitespace
    removed. *)
Definition remove_ws (s : str) : str := filter (fun c => isspace c = false) s.

(** [s.split()]: the maximal runs of non-whitespace characters, in order.
    [cur] is the word being read, in reverse. *)
Fixpoint words_from (cur : str) (s : str) : list str :=
  match s with
  | [] => if truthy cur then [reverse cur] else []
  | c :: s' =>
      if isspace c
      then (if truthy cur then reverse cur :: words_from [] s'
            else words_from [] s')
      else words_from (c :: cur) s'
  end.

Definition words (s : str) : list str := words_from [] s.

(** The words of the texts of a list, in order. *)
Definition tokens (l : list str) : list str := flat_map words l.

End PyStr.

Import PyStr.

(** ** CHUNK.py: the chunking engine *)

Module Chunk.

(** A chunk record (the dict built in [create_chunks]). *)
Record chunk := mk_chunk_record {
  wife_name : str;
  aliases : list str;
  section : str;
  content : str;
  char_count : nat
}.

(** The dict returned by [extract_wife_info]. *)
Record wife_info := {
  info_wife_name : option str;
  info_aliases : list str
}.

(** A section dict of [split_into_sections]. *)
Record section_rec := {
  sec_title : str;
  sec_content : list str
}.

(** [self]: the size limits of a [SemanticChunker]. *)
Record chunker := {
  max_chunk_size : nat;
  min_chunk_size : nat
}.

(** [SemanticChunker(max_chunk_size=800, min_chunk_size=400)] *)
Definition default_chunker : chunker :=
  {| max_chunk_size := 800; min_chunk_size := 400 |}.

(** *** [len(alias) * 0.7] in binary64

    A positive double is a pair (mantissa, exponent) standing for
    mantissa * 2^exponent.  The literal [0.7] is the double
    6305039478318694 * 2^-53; the product with an integer is rounded to 53
    bits, ties to even. *)

Definition mant_0_7 : Z := 6305039478318694%Z.

Definition round53 (m e : Z) : Z * Z :=
  let bits := (Z.log2 m + 1)%Z in
  if (bits <=? 53)%Z then (m, e)
  else
    let sh := (bits - 53)%Z in
    let q := Z.shiftr m sh in
    let r := Z.land m (Z.ones sh) in
    let half := Z.shiftl 1 (sh - 1) in
    let q' := if (half <? r)%Z || ((r =? half)%Z && Z.odd q)
              then (q + 1)%Z else q in
    (q', (e + sh)%Z).

Definition mul_0_7 (n : nat) : Z * Z :=
  round53 (Z.of_nat n * mant_0_7) (-53).

(** [k > f] for an integer [k] and a double [f]. *)
Definition int_gt_float (k : nat) (f : Z * Z) : bool :=
  let '(m, e) := f in
  if (e <? 0)%Z then (m <? Z.of_nat k * 2 ^ (- e))%Z
  else (m * 2 ^ e <? Z.of_nat k)%Z.

(** [sum(c.isalpha() for c in alias)] *)
Definition count_alpha (alias : str) : nat :=
  sum_list_with (fun c => if isalpha c then 1 else 0) alias.

(** The test of line 63:
    [3 <= len(alias) <= 20 and sum(...) > len(alias) * 0.7]. *)
Definition accept_alias (alias : str) : bool :=
  (3 <=? length alias) && (length alias <=? 20) &&
  int_gt_float (count_alpha alias) (mul_0_7 (length alias)).

(** *** The regular expressions of [extract_wife_info] *)

(** [umm al-muminin\s+([a-z]+(?:\s+bint\s+[a-z]+(?:\s+[a-z]+)?)?)]
    tried at the start of [s]: group 1 on success. *)
Definition opt_third (s : str) : str :=
  let '(ws, r) := span isspace s in
  let '(n, _) := span is_az r in
  if truthy ws && truthy n then ws ++ n else [].

Definition opt_bint (s : str) : str :=
  let '(ws, r) := span isspace s in
  if truthy ws && startswith r (lit "bint") then
    let '(ws', r') := span isspace (drop 4 r) in
    let '(n, r'') := span is_az r' in
    if truthy ws' && truthy n
    then ws ++ lit "bint" ++ ws' ++ n ++ opt_third r''
    else []
  else [].

Definition match_name_at (s : str) : option str :=
  if startswith s (lit "umm al-muminin") then
    let '(ws, r) := span isspace (drop 14 s) in
    let '(n, r') := span is_az r in
    if truthy ws && truthy n then Some (n ++ opt_bint r') else None
  else None.

(** [re.search(..., s)]: the leftmost position where the pattern matches. *)
Fixpoint search_name (s : str) : option str :=
  match match_name_at s with
  | Some n => Some n
  | None =>
      match s with
      | [] => None
      | _ :: s' => search_name s'
      end
  end.

(** The introduction phrases of [alias_patterns], in order; each stands
    for [PHRASE[:\s]+([a-z\s]{3,20})(?:[,\.]|$)]. *)
Definition alias_phrases : list str :=
  [lit "also known as"; lit "nicknamed"; lit "called"; lit "dubbed"].

Definition is_colon_space (c : ascii) : bool := (code c =? 58) || isspace c.
Definition is_az_space (c : ascii) : bool := is_az c || isspace c.
Definition is_comma_dot (c : ascii) : bool := (code c =? 44) || (code c =? 46).

(** Greedy repetition with backtracking: the counts [n], [n-1], ..., [lo]
    are tried in that order. *)
Fixpoint try_down {A} (f : nat -> option A) (lo n : nat) : option A :=
  if n <? lo then None
  else match f n with
       | Some a => Some a
       | None =>
           match n with
           | 0 => None
           | S n' => try_down f lo n'
           end
       end.

(** [(?:[,\.]|$)] at the start of [s]: the number of characters consumed.
    [$] matches at the end of the string and before a final newline. *)
Definition match_terminator (s : str) : option nat :=
  match s with
  | [] => Some 0
  | c :: s' =>
      if is_comma_dot c then Some 1
      else if Ascii.eqb c nl && negb (truthy s') then Some 0
      else None
  end.

(** One alias pattern tried at the start of [s]: the group and the length
    of the whole match. *)
Definition match_alias_at (phrase s : str) : option (str * nat) :=
  if startswith s phrase then
    let r := drop (length phrase) s in
    try_down (fun j =>
      let r' := drop j r in
      try_down (fun g =>
        match match_terminator (drop g r') with
        | Some t => Some (take g r', length phrase + j + g + t)
        | None => None
        end) 3 (Nat.min 20 (length (span is_az_space r').1)))
      1 (length (span is_colon_space r).1)
  else None.

(** [re.findall(pattern, s)]: the groups of the non-overlapping matches,
    left to right.  [skip] counts the characters still covered by the
    previous match. *)
Fixpoint findall_from (phrase : str) (skip : nat) (s : str) : list str :=
  match s with
  | [] => []
  | _ :: s' =>
      match skip with
      | S k => findall_from phrase k s'
      | 0 =>
          match match_alias_at phrase s with
          | Some (g, n) => g :: findall_from phrase (n - 1) s'
          | None => findall_from phrase 0 s'
          end
      end
  end.

Definition findall (phrase s : str) : list str := findall_from phrase 0 s.

(** The inner loop of lines 59-64 over the matches of one pattern. *)
Definition filter_aliases (matches : list str) : list str :=
  flat_map (fun m =>
    let alias := strip m in
    if accept_alias alias then [title alias] else []) matches.

(** The candidates of all patterns, in pattern order. *)
Definition alias_candidates (text : str) : list str :=
  flat_map (fun phrase => findall phrase (lower text)) alias_phrases.

(** [extract_wife_info]; [list(set(aliases))] is the enumeration of a
    finite set. *)
Definition extract_wife_info (text : str) : wife_info :=
  {| info_wife_name := title <$> search_name (lower text);
     info_aliases :=
       elements (list_to_set (filter_aliases (alias_candidates text)) : gset str) |}.

(** *** [split_into_sections] *)

Definition section_markers : list str :=
  [lit "name and lineage"; lit "her marriage"; lit "her life with";
   lit "her emigration"; lit "her death"; lit "her virtues";
   lit "embracing islam"; lit "her childhood"; lit "her upbringing";
   lit "her knowledge"; lit "wisdom behind"; lit "her contributions";
   lit "her generosity"; lit "battle of"; lit "her worship"; lit "her piety";
   lit "criteria for"; lit "the wisdom"; lit "her father"; lit "her mother"].

(** [[p.strip() for p in text.split('\n') if p.strip()]] *)
Definition paragraphs (text : str) : list str :=
  omap (fun p => if truthy (strip p) then Some (strip p) else None)
       (split_char nl text).

(** The inner [for marker in section_markers] loop with its [break]: the
    first marker the paragraph starts with. *)
Definition find_marker (para_lower : str) : option str :=
  List.find (fun marker => startswith para_lower marker) section_markers.

(** One iteration of the paragraph loop on the pair
    ([sections], [current_section]). *)
Definition section_step (st : list section_rec * section_rec) (para : str)
  : list section_rec * section_rec :=
  let '(sections, current_section) := st in
  match find_marker (lower para) with
  | Some marker =>
      (if truthy (sec_content current_section)
       then sections ++ [current_section] else sections,
       {| sec_title := title marker; sec_content := [para] |})
  | None =>
      (sections,
       {| sec_title := sec_title current_section;
          sec_content := sec_content current_section ++ [para] |})
  end.

Definition split_into_sections (text : str) : list section_rec :=
  let '(sections, current_section) :=
    foldl section_step
          ([], {| sec_title := lit "Introduction"; sec_content := [] |})
          (paragraphs text) in
  if truthy (sec_content current_section)
  then sections ++ [current_section] else sections.

(** *** [create_chunks] *)

(** [re.split(r'(?<=[.!?])\s+', s)].  [cur] is the piece being read, in
    reverse; [skipping] holds inside a separator (a whitespace run that
    follows one of [.!?]). *)
Definition is_sentence_end (c : ascii) : bool :=
  (code c =? 46) || (code c =? 33) || (code c =? 63).

Fixpoint re_split_from (cur : str) (skipping : bool) (s : str) : list str :=
  match s with
  | [] => [reverse cur]
  | c :: s' =>
      if skipping then
        if isspace c then re_split_from cur true s'
        else re_split_from [c] false s'
      else
        match cur with
        | p :: _ =>
            if isspace c && is_sentence_end p
            then reverse cur :: re_split_from [] true s'
            else re_split_from (c :: cur) false s'
        | [] => re_split_from [c] false s'
        end
  end.

Definition re_split_sentences (s : str) : list str := re_split_from [] false s.

(** The dict appended to [chunks]. *)
Definition make_chunk (info : wife_info) (sec_name text : str) : chunk :=
  {| wife_name :=
       match info_wife_name info with
       | Some n => if truthy n then n else lit "Unknown"
       | None => lit "Unknown"
       end;
     aliases := info_aliases info;
     section := sec_name;
     content := text;
     char_count := length text |}.

(** The state of the sentence loop: the contents flushed so far,
    [current_chunk] and [current_length]. *)
Record pack_state := {
  flushed : list str;
  current_chunk : list str;
  current_length : nat
}.

(** [current_chunk = []], [current_length = 0] *)
Definition init_state : pack_state :=
  {| flushed := []; current_chunk := []; current_length := 0 |}.

Definition pack_step (self : chunker) (st : pack_state) (sentence0 : str)
  : pack_state :=
  let sentence := strip sentence0 in
  if negb (truthy sentence) then st
  else
    let sentence_length := length sentence in
    if (max_chunk_size self <? current_length st + sentence_length) &&
       (min_chunk_size self <=? current_length st)
    then {| flushed := flushed st ++ [join [space] (current_chunk st)];
            current_chunk := [sentence];
            current_length := sentence_length |}
    else {| flushed := flushed st;
            current_chunk := current_chunk st ++ [sentence];
            current_length := current_length st + sentence_length + 1 |}.

(** The contents of the chunks of an oversized section, in order. *)
Definition pack_sentences (self : chunker) (sentences : list str) : list str :=
  let st := foldl (pack_step self) init_state sentences in
  if truthy (current_chunk st)
  then flushed st ++ [join [space] (current_chunk st)]
  else flushed st.

(** The contents of the chunks made from one section text. *)
Definition section_contents (self : chunker) (section_text : str) : list str :=
  if length section_text <=? max_chunk_size self then [section_text]
  else pack_sentences self (re_split_sentences section_text).

Definition chunk_section (self : chunker) (info : wife_info)
  (sec : section_rec) : list chunk :=
  map (make_chunk info (sec_title sec))
      (section_contents self (join [space] (sec_content sec))).

Definition create_chunks (self : chunker) (chapter_text : str) : list chunk :=
  let info := extract_wife_info chapter_text in
  flat_map (chunk_section self info) (split_into_sections chapter_text).

(** *** [process_chapters] *)

(** The body of the correction loop (lines 279-294) for one chunk. *)
Definition fix_chunk (c : chunk) : chunk :=
  if str_eqb (wife_name c) (lit "Umm") || str_eqb (wife_name c) (lit "Unknown")
  then
    let content_lower := lower (content c) in
    if contains content_lower (lit "umm salamah") then
      {| wife_name := lit "Umm Salamah Hind Bint Umayyah";
         aliases := aliases c; section := section c;
         content := content c; char_count := char_count c |}
    else if contains content_lower (lit "umm habibah") then
      {| wife_name := lit "Umm Habibah Ramlah Bint Abu Sufyan";
         aliases := aliases c; section := section c;
         content := content c; char_count := char_count c |}
    else if contains content_lower (lit "conclusion") then
      {| wife_name := lit "Conclusion";
         aliases := aliases c; section := lit "Conclusion";
         content := content c; char_count := char_count c |}
    else c
  else c.

(** The post-processing pass over [all_chunks]. *)
Definition post_process (all_chunks : list chunk) : list chunk :=
  map fix_chunk all_chunks.

(** [process_chapters] on the loaded chapters: the chunks saved and
    returned.  With no chunk at all the average of the statistics divides
    by zero before anything is saved. *)
Definition process_chapters (chapters : list str) : option (list chunk) :=
  let all_chunks :=
    post_process (flat_map (create_chunks default_chunker) chapters) in
  if truthy all_chunks then Some all_chunks else None.

(** *** Properties of chunk contents

    A content [c] made from the sentences of a section: it is one whole
    sentence, or its last sentence was appended to a buffer [p] still
    shorter than [min_chunk_size]. *)
Definition single_sentence (sentences : list str) (c : str) : Prop :=
  exists s, s ∈ sentences /\ c = strip s.

Definition grown_below_min (self : chunker) (sentences : list str) (c : str)
  : Prop :=
  exists p s, s ∈ sentences /\ c = p ++ [space] ++ strip s /\
              length p < min_chunk_size self.

Definition size_ok (self : chunker) (sentences : list str) (c : str) : Prop :=
  length c <= max_chunk_size self + 1 \/
  grown_below_min self sentences c \/
  single_sentence sentences c.

(** [current_length] against the real length of the joined buffer. *)
Definition length_tracked (st : pack_state) : Prop :=
  (current_chunk st = [] -> current_length st = 0) /\
  length (join [space] (current_chunk st)) <= current_length st /\
  current_length st <= length (join [space] (current_chunk st)) + 1.

Definition sizes_ok (self : chunker) (st : pack_state) (seen : list str)
  : Prop :=
  length_tracked st /\
  Forall (size_ok self seen) (flushed st) /\
  size_ok self seen (join [space] (current_chunk st)).

(** The names the correction pass rewrites. *)
Definition placeholder_name (n : str) : bool :=
  str_eqb n (lit "Umm") || str_eqb n (lit "Unknown").

(** The binary64 test of [accept_alias] against the exact comparison, for
    one length. *)
Definition float_test_exact (n : nat) : bool :=
  forallb (fun k => Bool.eqb (int_gt_float k (mul_0_7 n)) (7 * n <? 10 * k))
          (seq 0 (S n)).

(** The non-empty lines of a text, as the specification names them: the
    pieces between newline characters that are not the empty string. *)
Definition non_empty_lines_of (lines : list str) : list str :=
  filter (fun l => l <> []) lines.

Definition non_empty_lines (text : str) : list str :=
  non_empty_lines_of (split_char nl text).

End Chunk.

(** ** retrieval.py: the retrieval engine *)

Module Retrieval.

(** The exceptions that can leave the functions below
    ([requests.exceptions.RequestException] is caught inside them).  The
    model covers the replies the two endpoints document: a body that
    decodes to a JSON object whose field, when present, has the documented
    type.  A body that decodes to something else (a list, a number, a
    [null] or wrongly typed field) raises other exceptions in the code
    ([AttributeError], [TypeError]); such replies are outside the model,
    and no property below speaks about them. *)
Inductive exn := KeyError | IndexError | ValueError.

(** How a Python call ends. *)
Inductive outcome (A : Type) :=
| Returned (a : A)
| Raised (e : exn).
Arguments Returned {A} a.
Arguments Raised {A} e.

(** What [requests.post(...)], [raise_for_status()] and [r.json()] give:
    a [RequestException] (no connection, deadline exceeded, error status,
    undecodable body), or the decoded object, of which only one field is
    read ([None] when the field is absent). *)
Inductive http_reply (A : Type) :=
| Failed
| Json (field : option A).
Arguments Failed {A}.
Arguments Json {A} field.

(** The collaborators of the module: the vector type; [sklearn]'s
    [cosine_similarity] of a stored vector and the query vector, a finite
    double read as a rational, or [None] when the pair is refused (the
    dimensions differ, a component is not finite) and the call raises
    [ValueError]; numpy's [argsort] with its default kind, which gives the
    indices that sort the array in ascending order and is not stable: the
    order in which it leaves equal values is not fixed by the program, so
    it is a parameter here, and the properties that need it assume
    [argsort_spec] below; the two endpoints, the configured generation URL
    and the fixed instruction text that opens the prompt. *)
Record services := {
  embedding : Type;
  cosine_similarity : embedding -> embedding -> option Q;
  argsort : list Q -> list nat;
  post_embed : list str -> http_reply (list embedding);
  post_generate : str -> http_reply str;
  OLLAMA_GENERATE_URL : str;
  instructions : str
}.

(** A row of the DataFrame [DF]; its position is the chunk id. *)
Record row (w : services) := {
  content : str;
  chunk_embeddings : embedding w
}.
Arguments content {w} r.
Arguments chunk_embeddings {w} r.

(** The external calls made, in order. *)
Inductive call :=
| EmbedCall (input : list str)
| GenerateCall (prompt : str).

(** Computations that log their external calls and may raise. *)
Definition M (A : Type) : Type := list call -> outcome A * list call.

Definition ret {A} (a : A) : M A := fun tr => (Returned a, tr).
Definition raise {A} (e : exn) : M A := fun tr => (Raised e, tr).
Definition bind {A B} (m : M A) (k : A -> M B) : M B :=
  fun tr =>
    match m tr with
    | (Returned a, tr') => k a tr'
    | (Raised e, tr') => (Raised e, tr')
    end.

Notation "'do' x <- m ; k" := (bind m (fun x => k))
  (at level 10, x name, m at level 100, k at level 200).

Definition call_embed (w : services) (input : list str)
  : M (http_reply (list (embedding w))) :=
  fun tr => (Returned (post_embed w input), tr ++ [EmbedCall input]).

Definition call_generate (w : services) (prompt : str) : M (http_reply str) :=
  fun tr => (Returned (post_generate w prompt), tr ++ [GenerateCall prompt]).

(** [create_embedding]; [DF] is the module global. *)
Definition create_embedding (w : services) (DF : option (list (row w)))
  (input_list : list str) : M (option (list (embedding w))) :=
  if negb (truthy input_list) || negb (bool_decide (is_Some DF)) then ret None
  else
    do r <- call_embed w input_list;
    match r with
    | Failed => ret None
    | Json (Some e) => ret (Some e)
    | Json None => raise KeyError
    end.

(** [inference] *)
Definition inference (w : services) (prompt : str) : M str :=
  if negb (truthy (OLLAMA_GENERATE_URL w))
  then ret (lit "OLLAMA_URL is not configured.")
  else
    do r <- call_generate w prompt;
    match r with
    | Failed =>
        ret (lit "Sorry, I couldn't connect to the Ollama server or the request timed out.")
    | Json (Some text) => ret text
    | Json None => ret (lit "Error: No 'response' field in Ollama output.")
    end.

(** What [np.argsort] promises of its result: every index of the array
    once, the values in ascending order along it.  [ascending a i j]: the
    value at [i] is at most the value at [j]. *)
Definition ascending (a : list Q) (i j : nat) : Prop :=
  exists si sj, a !! i = Some si /\ a !! j = Some sj /\ (si <= sj)%Q.

Definition argsort_spec (sort : list Q -> list nat) : Prop :=
  forall a, sort a ≡ₚ seq 0 (length a) /\ StronglySorted (ascending a) (sort a).

(** [np.argsort(similarities)[-3:][::-1]] *)
Definition top_indices (w : services) (similarities : list Q) : list nat :=
  let sorted := argsort w similarities in
  reverse (drop (length sorted - 3) sorted).

(** [cosine_similarity(stored_embeddings, [questions_embedding]).flatten()];
    [None] is the [ValueError] of [np.vstack] or [cosine_similarity] on
    vectors that do not all have the query's dimension. *)
Definition similarities_of (w : services) (df : list (row w))
  (questions_embedding : embedding w) : option (list Q) :=
  mapM (fun r => cosine_similarity w (chunk_embeddings r) questions_embedding) df.

(** [DF.iloc[top_indices]["content"].values]; [None] is the [IndexError]
    of [iloc] on a position that is not in the table. *)
Definition context_chunks (w : services) (df : list (row w))
  (top_indices : list nat) : option (list str) :=
  mapM (fun i => content <$> df !! i) top_indices.

(** The f-string of the prompt. *)
Definition build_prompt (w : services) (context users_query : str) : str :=
  instructions w ++ lit "Context:" ++ [nl; nl] ++ context ++ [nl; nl] ++
  lit "Question: " ++ users_query ++ [nl; nl] ++ lit "Answer:" ++ [nl] ++
  lit "    ".

(** [perform_rag_retrieval] *)
Definition perform_rag_retrieval (w : services) (DF : option (list (row w)))
  (users_query : str) : M str :=
  match DF with
  | None => ret (lit "The knowledge base is not loaded.")
  | Some df =>
      do questions_embedding_list <- create_embedding w DF [users_query];
      match questions_embedding_list with
      | None =>
          ret (lit "Failed to create embedding. Is Ollama running and the bge-m3 model available?")
      | Some [] => raise IndexError
      | Some (questions_embedding :: _) =>
          match df with
          | [] => raise ValueError
          | _ :: _ =>
              match similarities_of w df questions_embedding with
              | None => raise ValueError
              | Some similarities =>
                  match context_chunks w df (top_indices w similarities) with
                  | None => raise IndexError
                  | Some chunks =>
                      let context := join [nl; nl] chunks in
                      inference w (build_prompt w context users_query)
                  end
              end
          end
      end
  end.

(** A whole query, from an empty call log. *)
Definition run_query (w : services) (DF : option (list (row w)))
  (users_query : str) : outcome str * list call :=
  perform_rag_retrieval w DF users_query [].

(** *** Two sorts that meet [argsort_spec]

    An insertion sort on (value, index) pairs that leaves equal values in
    the order it met them.  Run on the array from the left it is the stable
    sort (equal values in ascending index order, as numpy's insertion sort
    on short arrays); run from the right it leaves equal values in
    descending index order.  Both are results [np.argsort] may give. *)
Fixpoint insert_stable (x : Q * nat) (l : list (Q * nat)) : list (Q * nat) :=
  match l with
  | [] => [x]
  | y :: l' =>
      if Qle_bool y.1 x.1 then y :: insert_stable x l' else x :: l
  end.

Definition sort_stable (l : list (Q * nat)) : list (Q * nat) :=
  foldl (fun acc x => insert_stable x acc) [] l.

(** The array with the position of each value. *)
Definition indexed (a : list Q) : list (Q * nat) := imap (fun i s => (s, i)) a.

Definition stable_argsort (a : list Q) : list nat :=
  (sort_stable (indexed a)).*2.

Definition reversing_argsort (a : list Q) : list nat :=
  (sort_stable (reverse (indexed a))).*2.

(** Ascending order of the values of (value, index) pairs. *)
Definition value_le (x y : Q * nat) : Prop := (x.1 <= y.1)%Q.

(** The fixed strings returned in place of an answer. *)
Definition not_loaded_msg : str := lit "The knowledge base is not loaded.".
Definition embed_failed_msg : str :=
  lit "Failed to create embedding. Is Ollama running and the bge-m3 model available?".
Definition generate_failed_msg : str :=
  lit "Sorry, I couldn't connect to the Ollama server or the request timed out.".

End Retrieval.

(** ** bot.py: the front-end command *)

Module Bot.

Definition MAX_CHARS : nat := 2000.

(** [range(0, stop, step)] *)
Definition range_step (stop step : nat) : list nat :=
  map (fun j => j * step) (seq 0 ((stop + step - 1) / step)).

(** [s[i:j]] for [i <= j] *)
Definition slice (s : str) (i j : nat) : str := take (j - i) (drop i s).

(** The slices of a long response. *)
Definition response_chunks (response_text : str) : list str :=
  map (fun i => slice response_text i (i + MAX_CHARS))
      (range_step (length response_text) MAX_CHARS).

(** The argument of [ctx.send] for slice [i] of [n]. *)
Definition part_message (n i : nat) (chunk : str) : str :=
  if i =? 0
  then lit "**[Detailed Response - Part 1/" ++ str_of_nat n ++ lit "]**" ++
       [nl] ++ chunk
  else lit "**[Part " ++ str_of_nat (i + 1) ++ lit "/" ++ str_of_nat n ++
       lit "]**" ++ [nl] ++ chunk.

(** The header line of part [i] of [n]. *)
Definition part_header (n i : nat) : str :=
  if i =? 0
  then lit "**[Detailed Response - Part 1/" ++ str_of_nat n ++ lit "]**"
  else lit "**[Part " ++ str_of_nat (i + 1) ++ lit "/" ++ str_of_nat n ++
       lit "]**".

(** The messages passed to [ctx.send], in order. *)
Definition send_response (response_text : str) : list str :=
  if MAX_CHARS <? length response_text then
    let chunks := response_chunks response_text in
    imap (part_message (length chunks)) chunks
  else [response_text].

(** [azwaj_query]: the messages sent for a query. *)
Definition azwaj_query (w : Retrieval.services)
  (DF : option (list (Retrieval.row w))) (users_query : str) : list str :=
  let final_response :=
    match (Retrieval.run_query w DF users_query).1 with
    | Retrieval.Returned text => text
    | Retrieval.Raised _ =>
        lit "An internal error occurred while trying to process your request."
    end in
  send_response final_response.

End Bot.

(** ** Concrete inputs *)

Module Scenarios.

Import Chunk Retrieval.

Definition letters (n : nat) (c : string) : str := concat (replicate n (lit c)).

(** One paragraph of two sentences, 399 and 402 characters. *)
Definition below_min_text : str :=
  letters 398 "a" ++ lit ". " ++ letters 401 "b" ++ lit ".".

(** One paragraph of three sentences, 300, 600 and 10 characters. *)
Definition over_max_text : str :=
  letters 299 "a" ++ lit ". " ++ letters 599 "b" ++ lit ". " ++
  letters 9 "c" ++ lit ".".

(** One paragraph of four sentences, 400, 400, 400 and 10 characters. *)
Definition by_one_text : str :=
  letters 399 "a" ++ lit ". " ++ letters 399 "b" ++ lit ". " ++
  letters 399 "c" ++ lit ". " ++ letters 9 "d" ++ lit ".".

(** A text that introduces an alias of ten characters, seven of them
    letters. *)
Definition alias_text : str := lit "She is also known as ab cd e fg.".
Definition alias_candidate : str := lit "ab cd e fg".

(** Services whose vectors are standard basis vectors of one space,
    written as their index: the cosine similarity of two of them is 1 when
    they are the same vector and 0 otherwise.  [np.argsort] leaves equal
    values in index order.  The endpoints answer every request with the
    given replies. *)
Definition basis_services (embed_reply : http_reply (list nat))
  (generate_reply : http_reply str) : services :=
  {| embedding := nat;
     cosine_similarity := fun a b => Some (if a =? b then 1%Q else 0%Q);
     argsort := stable_argsort;
     post_embed := fun _ => embed_reply;
     post_generate := fun _ => generate_reply;
     OLLAMA_GENERATE_URL := lit "http://localhost:11434/api/generate";
     instructions := lit "You are an expert on the Azwaj." |}.

Definition basis_row (w : services) (text : string) (e : embedding w) : row w :=
  {| content := lit text; chunk_embeddings := e |}.

(** Both endpoints answer. *)
Definition up_services (answer : str) : services :=
  basis_services (Json (Some [0])) (Json (Some answer)).

(** The embedding endpoint is down. *)
Definition embed_down_services : services :=
  basis_services Failed (Json (Some (lit "An answer."))).

(** The generation endpoint is down. *)
Definition generate_down_services : services :=
  basis_services (Json (Some [0])) Failed.

(** Four stored chunks with the same vector. *)
Definition tied_rows (w : services) (e : embedding w) : list (row w) :=
  [basis_row w "chunk 0" e; basis_row w "chunk 1" e;
   basis_row w "chunk 2" e; basis_row w "chunk 3" e].

(** The same services on a numpy whose [argsort] leaves equal values in
    descending index order. *)
Definition reversing_services (w : services) : services :=
  {| embedding := embedding w;
     cosine_similarity := cosine_similarity w;
     argsort := reversing_argsort;
     post_embed := post_embed w;
     post_generate := post_generate w;
     OLLAMA_GENERATE_URL := OLLAMA_GENERATE_URL w;
     instructions := instructions w |}.

(** Services whose vectors are standard basis vectors of spaces of several
    dimensions, written (dimension, index): the similarity of two vectors
    of different dimensions is refused, as [sklearn] does. *)
Definition sized_services : services :=
  {| embedding := nat * nat;
     cosine_similarity := fun a b =>
       if a.1 =? b.1 then Some (if a.2 =? b.2 then 1%Q else 0%Q) else None;
     argsort := stable_argsort;
     post_embed := fun _ => Json (Some [(1024, 0)]);
     post_generate := fun _ => Json (Some (lit "An answer."));
     OLLAMA_GENERATE_URL := lit "http://localhost:11434/api/generate";
     instructions := lit "You are an expert on the Azwaj." |}.

(** A stored chunk whose vector has three components, where the query
    vector has 1024. *)
Definition short_vector_rows : list (row sized_services) :=
  [Build_row sized_services (lit "chunk 0") (3, 0)].

End Scenarios.

(** ** CHUNK.py: the statistics of [process_chapters] *)

Module ChunkReport.

Import Chunk.

(** One step of the recount of lines 299-302:
    [wife_chunk_counts[wife_name] = wife_chunk_counts.get(wife_name, 0) + 1] *)
Definition count_chunk (counts : gmap str nat) (c : chunk) : gmap str nat :=
  <[wife_name c := default 0 (counts !! wife_name c) + 1]> counts.

(** The dict [wife_chunk_counts] after the recount. *)
Definition wife_chunk_counts (all_chunks : list chunk) : gmap str nat :=
  foldl count_chunk ∅ all_chunks.

(** [sum(counts.values())] *)
Definition counted (counts : gmap str nat) : nat :=
  map_fold (fun _ n acc => n + acc) 0 counts.

(** Whether the correction loop counts the chunk in [fixed_count]: one of
    its three branches is taken. *)
Definition is_fixed (c : chunk) : bool :=
  if str_eqb (wife_name c) (lit "Umm") || str_eqb (wife_name c) (lit "Unknown")
  then
    let content_lower := lower (content c) in
    if contains content_lower (lit "umm salamah") then true
    else if contains content_lower (lit "umm habibah") then true
    else if contains content_lower (lit "conclusion") then true
    else false
  else false.

(** [fixed_count] at the end of the correction loop over [all_chunks]. *)
Definition fixed_count (all_chunks : list chunk) : nat :=
  sum_list_with (fun c => if is_fixed c then 1 else 0) all_chunks.

(** [sum(1 for c in all_chunks if c['char_count'] < 500)] *)
Definition small_chunks (all_chunks : list chunk) : nat :=
  sum_list_with (fun c => if char_count c <? 500 then 1 else 0) all_chunks.

(** [sum(1 for c in all_chunks if 500 <= c['char_count'] < 800)] *)
Definition medium_chunks (all_chunks : list chunk) : nat :=
  sum_list_with
    (fun c => if (500 <=? char_count c) && (char_count c <? 800) then 1 else 0)
    all_chunks.

(** [sum(1 for c in all_chunks if c['char_count'] >= 800)] *)
Definition large_chunks (all_chunks : list chunk) : nat :=
  sum_list_with (fun c => if 800 <=? char_count c then 1 else 0) all_chunks.

(** The chunks that carry a name the correction loop looks at. *)
Definition placeholder_chunks (all_chunks : list chunk) : nat :=
  sum_list_with
    (fun c => if placeholder_name (wife_name c) then 1 else 0) all_chunks.

End ChunkReport.

(** ** Shapes of texts and lists used in the statements *)

Module Shapes.

Import Chunk.

(** A character of an accepted alias or an extracted name. *)
Definition letter_or_space (c : ascii) : Prop :=
  isalpha c = true \/ isspace c = true.

Definition az_or_space (c : ascii) : Prop :=
  is_az c = true \/ isspace c = true.

(** The paragraph starts one of the section markers. *)
Definition is_marker_paragraph (para : str) : bool :=
  bool_decide (is_Some (find_marker (lower para))).

(** The title [split_into_sections] gives a section that starts with the
    paragraph. *)
Definition title_for (para : str) : str :=
  match find_marker (lower para) with
  | Some marker => title marker
  | None => lit "Introduction"
  end.

(** The elements of a list other than the first and the last. *)
Definition interior {A} (l : list A) : list A := drop 1 (take (length l - 1) l).

(** As [size_ok], with the bound [max_chunk_size] itself. *)
Definition size_ok_first (self : chunker) (sentences : list str) (c : str)
  : Prop :=
  length c <= max_chunk_size self \/
  grown_below_min self sentences c \/
  single_sentence sentences c.

(** A section as [split_into_sections] builds it: a first paragraph that
    decides the title, then paragraphs that start with no marker. *)
Definition section_wf (sec : section_rec) : Prop :=
  exists p ps, sec_content sec = p :: ps /\ sec_title sec = title_for p /\
               Forall (fun q => is_marker_paragraph q = false) ps.

(** A section opened by a marker. *)
Definition section_marked (sec : section_rec) : Prop :=
  exists p ps, sec_content sec = p :: ps /\ is_marker_paragraph p = true.

(** The invariant of the paragraph loop on ([sections],
    [current_section]). *)
Definition sections_inv (st : list section_rec * section_rec) : Prop :=
  Forall section_wf st.1 /\ Forall section_marked (drop 1 st.1) /\
  ((sec_content st.2 = [] /\ st.1 = [] /\ sec_title st.2 = lit "Introduction") \/
   (section_wf st.2 /\ (st.1 <> [] -> section_marked st.2))).

(** The number of sections a list of paragraphs calls for. *)
Definition sections_expected (paras : list str) : nat :=
  length (filter (fun p => is_marker_paragraph p = true) paras) +
  match paras with
  | p :: _ => if is_marker_paragraph p then 0 else 1
  | [] => 0
  end.

Definition count_inv (st : list section_rec * section_rec) (seen : list str)
  : Prop :=
  length st.1 + (if truthy (sec_content st.2) then 1 else 0) =
  sections_expected seen /\
  (truthy (sec_content st.2) = false -> seen = []).

(** Invariants of the sentence loop: every flushed content and every
    buffered sentence holds a word; after a flush [current_length] is
    exact; the first content keeps the bound [max_chunk_size]. *)
Definition worded_inv (st : pack_state) : Prop :=
  length_tracked st /\
  Forall (fun c => words c <> []) (flushed st) /\
  Forall (fun s => words s <> []) (current_chunk st).

Definition exact_inv (self : chunker) (st : pack_state) : Prop :=
  (flushed st <> [] ->
   current_chunk st <> [] /\
   current_length st = length (join [space] (current_chunk st))) /\
  Forall (fun c => min_chunk_size self <= length c) (drop 1 (flushed st)).

Definition first_inv (self : chunker) (st : pack_state) (seen : list str)
  : Prop :=
  match flushed st with
  | c :: _ => size_ok_first self seen c
  | [] =>
      size_ok_first self seen (join [space] (current_chunk st)) /\
      (current_chunk st = [] -> current_length st = 0) /\
      (current_chunk st <> [] ->
       current_length st = length (join [space] (current_chunk st)) + 1)
  end.

(** A matched name: it starts and ends with a letter of [a-z] and holds
    only such letters and whitespace. *)
Definition name_shape (n : str) : Prop :=
  (exists c n', n = c :: n' /\ is_az c = true) /\
  Forall az_or_space n /\
  (exists d, last n = Some d /\ is_az d = true).

(** Nothing, or whitespace and words that end in a letter. *)
Definition tail_shape (t : str) : Prop :=
  t = [] \/
  (Forall az_or_space t /\ exists d, last t = Some d /\ is_az d = true).

(** The lowercased content holds none of the keywords of the correction
    pass. *)
Definition no_keyword (c : chunk) : bool :=
  negb (contains (lower (content c)) (lit "umm salamah")) &&
  negb (contains (lower (content c)) (lit "umm habibah")) &&
  negb (contains (lower (content c)) (lit "conclusion")).

End Shapes.

(** ** More concrete inputs *)

Module MoreScenarios.

Import Chunk Retrieval Scenarios.

(** A chapter with a name, one marked section and an oversized one. *)
Definition chapter_text : str :=
  lit "Umm al-Muminin Hafsah bint Umar was born in Makkah." ++ [nl] ++
  lit "Her Marriage. She married in year three." ++ [nl] ++
  lit "Her Death. " ++ letters 450 "a" ++ lit ". " ++ letters 450 "b" ++
  lit ". " ++ letters 450 "c" ++ lit ". The end.".

Definition answer : str := lit "Hafsah was the daughter of Umar.".

Definition answering_services : services := up_services answer.


End MoreScenarios.

(** * Properties *)

(** ** Lists and text *)

Module TextLemmas.

(** An invariant of a left fold, indexed by the elements consumed so far. *)
Lemma foldl_invariant_prefix {A B} (P : A -> list B -> Prop)
  (f : A -> B -> A) a0 l :
  P a0 [] ->
  (forall a seen x rest,
      l = seen ++ x :: rest -> P a seen -> P (f a x) (seen ++ [x])) ->
  P (foldl f a0 l) l.
Proof.
  intros H0 Hstep.
  enough (H : forall seen rest, l = seen ++ rest -> P (foldl f a0 seen) seen).
  { apply H with (rest := []). by rewrite app_nil_r. }
  induction seen as [|x seen IH] using rev_ind; intros rest Hl; [done|].
  rewrite foldl_app. simpl. rewrite <- app_assoc in Hl.
  apply (Hstep _ _ _ rest Hl). by apply (IH (x :: rest)).
Qed.

Lemma foldl_invariant {A B} (P : A -> list B -> Prop) (f : A -> B -> A) a0 l :
  P a0 [] ->
  (forall a seen x, P a seen -> P (f a x) (seen ++ [x])) ->
  P (foldl f a0 l) l.
Proof.
  intros H0 Hstep. apply foldl_invariant_prefix; [done|].
  intros a seen x _ _. apply Hstep.
Qed.

Lemma join_snoc sep l x :
  join sep (l ++ [x]) = if truthy l then join sep l ++ sep ++ x else x.
Proof.
  induction l as [|y l IH]; [done|].
  change ((y :: l) ++ [x]) with (y :: (l ++ [x])).
  destruct l as [|z l]; [done|].
  change (join sep (y :: (z :: l) ++ [x]))
    with (y ++ sep ++ join sep ((z :: l) ++ [x])).
  rewrite IH. simpl truthy. cbn iota.
  change (join sep (y :: z :: l)) with (y ++ sep ++ join sep (z :: l)).
  by rewrite <- !app_assoc.
Qed.

Lemma length_join_snoc l x :
  length (join [space] (l ++ [x])) =
  if truthy l then length (join [space] l) + 1 + length x else length x.
Proof.
  rewrite join_snoc. destruct l; cbn [truthy]; [done|].
  rewrite !length_app. simpl. lia.
Qed.

Lemma split_char_cons sep c s :
  split_char sep (c :: s) =
  if Ascii.eqb c sep then [] :: split_char sep s
  else match split_char sep s with
       | p :: ps => (c :: p) :: ps
       | [] => [[c]]
       end.
Proof. reflexivity. Qed.

Lemma words_from_space cur c s :
  isspace c = true ->
  words_from cur (c :: s) = words_from cur [] ++ words s.
Proof. intros Hc. cbn [words_from]. rewrite Hc. by destruct cur. Qed.

(** A whitespace character between two texts separates their words. *)
Lemma words_from_app_space cur a w b :
  isspace w = true ->
  words_from cur (a ++ w :: b) = words_from cur a ++ words b.
Proof.
  intros Hw. revert cur. induction a as [|c a IH]; intros cur.
  - by apply words_from_space.
  - cbn [app words_from]. destruct (isspace c).
    + destruct cur; cbn [truthy]; by rewrite IH.
    + apply IH.
Qed.

Lemma words_app_space a w b :
  isspace w = true -> words (a ++ w :: b) = words a ++ words b.
Proof. apply words_from_app_space. Qed.

Lemma words_cons_space c s : isspace c = true -> words (c :: s) = words s.
Proof. intros Hc. by apply (words_app_space [] c s). Qed.

Lemma words_lstrip s : words (lstrip s) = words s.
Proof.
  induction s as [|c s IH]; [done|]. cbn [lstrip].
  destruct (isspace c) eqn:Hc; [|done]. by rewrite words_cons_space.
Qed.

Lemma lstrip_spec s : exists t, s = t ++ lstrip s /\ forallb isspace t = true.
Proof.
  induction s as [|c s (t & Ht & Hws)]; [by exists []|]. cbn [lstrip].
  destruct (isspace c) eqn:Hc.
  - exists (c :: t). split; [by rewrite Ht at 1|]. cbn. by rewrite Hc.
  - by exists [].
Qed.

Lemma words_from_trailing cur a t :
  forallb isspace t = true -> words_from cur (a ++ t) = words_from cur a.
Proof.
  intros Ht. revert cur. induction a as [|c a IH]; intros cur.
  - cbn [app]. revert cur. induction t as [|c t IHt]; intros cur; [done|].
    cbn in Ht. apply andb_prop in Ht as [Hc Ht].
    cbn [words_from]. rewrite Hc, (IHt Ht []). by destruct cur.
  - cbn [app words_from]. destruct (isspace c).
    + destruct cur; cbn [truthy]; by rewrite IH.
    + apply IH.
Qed.

Lemma forallb_reverse {A} (f : A -> bool) l :
  forallb f (reverse l) = forallb f l.
Proof.
  induction l as [|x l IH]; [done|].
  rewrite reverse_cons, forallb_app, IH. cbn. rewrite andb_true_r.
  apply andb_comm.
Qed.

Lemma words_rstrip s : words (rstrip s) = words s.
Proof.
  unfold rstrip. destruct (lstrip_spec (reverse s)) as (t & Ht & Hws).
  apply (f_equal reverse) in Ht. rewrite reverse_involutive, reverse_app in Ht.
  rewrite Ht at 2. unfold words. rewrite words_from_trailing; [done|].
  by rewrite forallb_reverse.
Qed.

Lemma words_strip s : words (strip s) = words s.
Proof. unfold strip. by rewrite words_rstrip, words_lstrip. Qed.

Lemma words_falsy s : truthy (strip s) = false -> words s = [].
Proof. intros H. rewrite <- words_strip. by destruct (strip s). Qed.

Lemma tokens_app l k : tokens (l ++ k) = tokens l ++ tokens k.
Proof. apply flat_map_app. Qed.

Lemma tokens_single s : tokens [s] = words s.
Proof. unfold tokens. simpl. by rewrite app_nil_r. Qed.

Lemma words_join w l : isspace w = true -> words (join [w] l) = tokens l.
Proof.
  intros Hw. induction l as [|x l IH]; [done|].
  destruct l as [|y l].
  - simpl. by rewrite app_nil_r.
  - change (join [w] (x :: y :: l)) with (x ++ w :: join [w] (y :: l)).
    rewrite words_app_space by done. by rewrite IH.
Qed.

Lemma join_split_char sep s : join [sep] (split_char sep s) = s.
Proof.
  induction s as [|c s IH]; [done|]. rewrite split_char_cons.
  destruct (Ascii.eqb c sep) eqn:Hc.
  - apply Ascii.eqb_eq in Hc. subst c.
    destruct (split_char sep s) as [|p ps] eqn:Hsp.
    + by destruct s; [|cbn in Hsp; repeat case_match].
    + change (join [sep] ([] :: p :: ps)) with (sep :: join [sep] (p :: ps)).
      by rewrite IH.
  - destruct (split_char sep s) as [|p ps]; [by rewrite <- IH|].
    rewrite <- IH. by destruct ps.
Qed.

Lemma tokens_split_nl s : tokens (split_char nl s) = words s.
Proof. by rewrite <- (words_join nl), join_split_char. Qed.


(** Removing the whitespace of a text is gluing its words. *)
Lemma concat_words_from cur s :
  concat (words_from cur s) = reverse cur ++ remove_ws s.
Proof.
  revert cur. induction s as [|c s IH]; intros cur.
  - cbn [words_from]. change (remove_ws []) with (@nil ascii).
    destruct cur; [done|]. cbn [truthy concat]. done.
  - cbn [words_from]. unfold remove_ws. destruct (isspace c) eqn:Hc.
    + rewrite filter_cons_False by (by rewrite Hc).
      destruct cur; cbn [truthy concat]; by rewrite IH.
    + rewrite filter_cons_True by done.
      rewrite IH, reverse_cons, <- app_assoc. done.
Qed.

Lemma concat_words s : concat (words s) = remove_ws s.
Proof. apply concat_words_from. Qed.

Lemma remove_ws_concat l : remove_ws (concat l) = concat (tokens l).
Proof.
  induction l as [|x l IH]; [done|].
  unfold tokens. cbn [concat flat_map]. rewrite concat_app.
  unfold remove_ws. rewrite filter_app. fold (remove_ws x).
  fold (remove_ws (concat l)). by rewrite IH, concat_words.
Qed.

End TextLemmas.

(** ** The chunking engine *)

Module ChunkTheory.

Import Chunk Scenarios TextLemmas.

(** *** Content is preserved *)

Lemma tokens_paragraphs text : tokens (paragraphs text) = words text.
Proof.
  unfold paragraphs. rewrite <- tokens_split_nl. unfold tokens.
  induction (split_char nl text) as [|p ps IH]; [done|].
  cbn [flat_map omap list_omap]. rewrite <- IH.
  destruct (truthy (strip p)) eqn:Hp.
  - cbn [flat_map]. by rewrite words_strip.
  - by rewrite (words_falsy p).
Qed.

Lemma re_split_from_tokens s : forall cur skipping,
  (skipping = true -> cur = []) ->
  tokens (re_split_from cur skipping s) =
  if skipping then words s else words_from [] (reverse cur ++ s).
Proof.
  induction s as [|c s IH]; intros cur skipping Hsk.
  - cbn [re_split_from]. rewrite tokens_single, app_nil_r.
    destruct skipping; [|done]. by rewrite (Hsk eq_refl).
  - cbn [re_split_from]. destruct skipping.
    + destruct (isspace c) eqn:Hc.
      * rewrite IH by done. by rewrite words_cons_space.
      * rewrite IH by done. done.
    + destruct cur as [|p cur].
      * rewrite IH by done. done.
      * destruct (isspace c && is_sentence_end p) eqn:Hsep.
        -- apply andb_prop in Hsep as [Hc _].
           change (reverse (p :: cur) :: re_split_from [] true s)
             with ([reverse (p :: cur)] ++ re_split_from [] true s).
           rewrite tokens_app, tokens_single, IH by done.
           by rewrite words_from_app_space.
        -- rewrite IH by done.
           rewrite (reverse_cons (p :: cur)), <- app_assoc. done.
Qed.

Lemma re_split_sentences_tokens s : tokens (re_split_sentences s) = words s.
Proof. unfold re_split_sentences. by rewrite re_split_from_tokens. Qed.

Lemma pack_step_tokens self st sentence :
  tokens (flushed (pack_step self st sentence)) ++
  tokens (current_chunk (pack_step self st sentence)) =
  (tokens (flushed st) ++ tokens (current_chunk st)) ++ words sentence.
Proof.
  unfold pack_step. destruct (truthy (strip sentence)) eqn:Hs; cbn [negb].
  - destruct (_ && _); cbn [flushed current_chunk].
    + rewrite tokens_app, !tokens_single, words_join, words_strip by done.
      done.
    + rewrite tokens_app, tokens_single, words_strip, app_assoc. done.
  - rewrite (words_falsy sentence) by done. by rewrite app_nil_r.
Qed.

Lemma pack_sentences_tokens self sentences :
  tokens (pack_sentences self sentences) = tokens sentences.
Proof.
  unfold pack_sentences.
  assert (Hinv :
    tokens (flushed (foldl (pack_step self) init_state sentences)) ++
    tokens (current_chunk (foldl (pack_step self) init_state sentences)) =
    tokens sentences).
  { apply (foldl_invariant (fun st seen =>
             tokens (flushed st) ++ tokens (current_chunk st) = tokens seen)).
    - done.
    - intros st seen x Hst.
      by rewrite pack_step_tokens, Hst, tokens_app, tokens_single. }
  destruct (current_chunk (foldl (pack_step self) init_state sentences))
    as [|x l] eqn:Hcur.
  - cbn [truthy]. rewrite <- Hinv. by rewrite app_nil_r.
  - cbn [truthy]. rewrite tokens_app, tokens_single, words_join by done. done.
Qed.

Lemma section_contents_tokens self section_text :
  tokens (section_contents self section_text) = words section_text.
Proof.
  unfold section_contents. destruct (_ <=? _).
  - apply tokens_single.
  - by rewrite pack_sentences_tokens, re_split_sentences_tokens.
Qed.

(** Every paragraph goes to exactly one section, in order. *)
Lemma section_step_contents st para :
  flat_map sec_content ((section_step st para).1 ++ [(section_step st para).2]) =
  flat_map sec_content (st.1 ++ [st.2]) ++ [para].
Proof.
  destruct st as [sections cur]. unfold section_step.
  destruct (find_marker (lower para)) as [marker|]; cbn [fst snd].
  - destruct (sec_content cur) as [|x l] eqn:Hcur; cbn [truthy].
    + rewrite !flat_map_app. cbn [flat_map sec_content]. rewrite Hcur.
      by rewrite !app_nil_r.
    + rewrite !flat_map_app. cbn [flat_map sec_content]. by rewrite !app_nil_r.
  - rewrite !flat_map_app. cbn [flat_map sec_content].
    by rewrite !app_nil_r, app_assoc.
Qed.

Lemma split_into_sections_contents text :
  flat_map sec_content (split_into_sections text) = paragraphs text.
Proof.
  unfold split_into_sections.
  set (init := ([], {| sec_title := lit "Introduction"; sec_content := [] |})).
  assert (Hinv : flat_map sec_content
                   ((foldl section_step init (paragraphs text)).1 ++
                    [(foldl section_step init (paragraphs text)).2]) =
                 paragraphs text).
  { apply (foldl_invariant
             (fun st seen => flat_map sec_content (st.1 ++ [st.2]) = seen)).
    - done.
    - intros st seen x Hst. by rewrite section_step_contents, Hst. }
  destruct (foldl section_step init (paragraphs text)) as [sections cur].
  cbn [fst snd] in Hinv.
  destruct (sec_content cur) as [|x l] eqn:Hcur; cbn [truthy]; [|done].
  rewrite <- Hinv, flat_map_app. cbn [flat_map]. rewrite Hcur.
  by rewrite !app_nil_r.
Qed.

Lemma create_chunks_tokens self text :
  tokens (map content (create_chunks self text)) = tokens (paragraphs text).
Proof.
  unfold create_chunks.
  set (info := extract_wife_info text).
  rewrite <- split_into_sections_contents.
  induction (split_into_sections text) as [|sec secs IH]; [done|].
  cbn [flat_map]. rewrite map_app, !tokens_app, IH. f_equal.
  unfold chunk_section. rewrite map_map. cbn [content make_chunk].
  rewrite map_id, section_contents_tokens, words_join by done. done.
Qed.

(** The correction pass touches names and section labels only. *)
Lemma fix_chunk_content c :
  content (fix_chunk c) = content c /\ char_count (fix_chunk c) = char_count c.
Proof. unfold fix_chunk. repeat case_match; done. Qed.

Lemma post_process_contents l : map content (post_process l) = map content l.
Proof.
  unfold post_process. rewrite map_map. apply map_ext.
  intros c. apply fix_chunk_content.
Qed.

Lemma tokens_non_empty l : tokens (non_empty_lines_of l) = tokens l.
Proof.
  unfold non_empty_lines_of, tokens.
  induction l as [|p ps IH]; [done|]. destruct p as [|c p].
  - rewrite filter_cons_False by (intros H; by apply H). done.
  - rewrite filter_cons_True by done. cbn [flat_map]. by rewrite IH.
Qed.

Lemma tokens_non_empty_lines text : tokens (non_empty_lines text) = words text.
Proof. unfold non_empty_lines. by rewrite tokens_non_empty, tokens_split_nl. Qed.

(** C5: for every chapter text, the contents of the emitted chunks,
    concatenated in store order, are the chapter text itself up to
    whitespace, which is the concatenation of its non-empty lines in their
    order; and the words of the chunks, in order, are the words of the
    chapter text: nothing is dropped, duplicated or reordered by line
    splitting, section splitting and sentence chunking (nor by the
    correction pass). *)
Theorem chunks_reconstruct_text (self : chunker) (chapter_text : str) :
  let chunks := post_process (create_chunks self chapter_text) in
  remove_ws (concat (map content chunks)) = remove_ws chapter_text /\
  tokens (map content chunks) = words chapter_text /\
  remove_ws (concat (map content chunks)) =
  remove_ws (concat (non_empty_lines chapter_text)) /\
  tokens (map content chunks) = tokens (non_empty_lines chapter_text).
Proof.
  cbn zeta. rewrite post_process_contents, !remove_ws_concat.
  rewrite create_chunks_tokens, tokens_paragraphs, tokens_non_empty_lines.
  by rewrite concat_words.
Qed.

(** *** [char_count] *)

Lemma create_chunks_count self text :
  Forall (fun c => char_count c = length (content c)) (create_chunks self text).
Proof.
  unfold create_chunks. apply Forall_forall. intros c Hc.
  apply list_elem_of_In, in_flat_map in Hc. destruct Hc as (sec & _ & Hc).
  unfold chunk_section in Hc. apply in_map_iff in Hc.
  destruct Hc as (t & <- & _). reflexivity.
Qed.

(** C8: every chunk record of the pipeline stores in [char_count] the exact
    length of its [content], whichever branch made it (small section,
    flushed buffer, final fragment), before and after the correction
    pass. *)
Theorem char_count_exact (self : chunker) (chapters : list str) :
  Forall (fun c => char_count c = length (content c))
         (flat_map (create_chunks self) chapters) /\
  Forall (fun c => char_count c = length (content c))
         (post_process (flat_map (create_chunks self) chapters)).
Proof.
  assert (H : Forall (fun c => char_count c = length (content c))
                     (flat_map (create_chunks self) chapters)).
  { apply Forall_forall. intros c Hc.
    apply list_elem_of_In, in_flat_map in Hc as (text & _ & Hc).
    apply list_elem_of_In in Hc.
    pose proof (create_chunks_count self text) as Hall.
    rewrite Forall_forall in Hall. by apply Hall. }
  split; [done|]. unfold post_process. rewrite Forall_map.
  eapply Forall_impl; [exact H|]. intros c Hc. cbn.
  destruct (fix_chunk_content c) as [-> ->]. done.
Qed.

(** *** The correction pass *)

Lemma fix_chunk_named c :
  placeholder_name (wife_name c) = false -> fix_chunk c = c.
Proof. unfold fix_chunk, placeholder_name. intros ->. reflexivity. Qed.

Lemma fix_chunk_cases c :
  fix_chunk c = c \/ placeholder_name (wife_name (fix_chunk c)) = false.
Proof.
  unfold fix_chunk.
  destruct (str_eqb (wife_name c) (lit "Umm") ||
            str_eqb (wife_name c) (lit "Unknown")) eqn:Hn.
  - repeat case_match; (by left) || (right; vm_compute; reflexivity).
  - by left.
Qed.

Lemma fix_chunk_idem c : fix_chunk (fix_chunk c) = fix_chunk c.
Proof.
  destruct (fix_chunk_cases c) as [Heq | Hnamed].
  - by rewrite Heq.
  - by apply fix_chunk_named.
Qed.

(** C6: the correction pass is idempotent: on every collection of chunks,
    applying it twice gives the same chunk collection as applying it
    once. *)
Theorem post_process_idempotent (all_chunks : list chunk) :
  post_process (post_process all_chunks) = post_process all_chunks.
Proof.
  unfold post_process. rewrite map_map. apply map_ext.
  intros c. apply fix_chunk_idem.
Qed.

(** *** Chunk sizes *)

Lemma init_state_tracked : length_tracked init_state.
Proof. unfold length_tracked. simpl. lia. Qed.

Lemma pack_step_tracked self st sentence :
  length_tracked st -> length_tracked (pack_step self st sentence).
Proof.
  intros (H0 & Hlo & Hhi). unfold pack_step.
  destruct (truthy (strip sentence)) eqn:Hs; cbn [negb]; [|done].
  destruct (_ && _); unfold length_tracked; cbn [current_chunk current_length].
  - split; [done|]. simpl. lia.
  - rewrite length_join_snoc. split.
    + intros Habs. by destruct (current_chunk st).
    + destruct (current_chunk st) as [|y l] eqn:Hcur; cbn [truthy].
      * rewrite H0 by done. lia.
      * lia.
Qed.

Lemma size_ok_mono self seen x c :
  size_ok self seen c -> size_ok self (seen ++ [x]) c.
Proof.
  intros [H | [(p & s & Hs & Hc & Hp) | (s & Hs & Hc)]].
  - by left.
  - right; left. exists p, s. set_solver.
  - right; right. exists s. set_solver.
Qed.

Lemma pack_step_sizes self st seen sentence :
  sizes_ok self st seen ->
  sizes_ok self (pack_step self st sentence) (seen ++ [sentence]).
Proof.
  intros (Htr & Hfl & Hcur).
  split; [by apply pack_step_tracked|].
  assert (Hfl' : Forall (size_ok self (seen ++ [sentence])) (flushed st)).
  { eapply Forall_impl; [exact Hfl|]. intros c. apply size_ok_mono. }
  apply (size_ok_mono _ _ sentence) in Hcur.
  unfold pack_step.
  destruct (truthy (strip sentence)) eqn:Hs; cbn [negb]; [|done].
  destruct (max_chunk_size self <? current_length st + length (strip sentence))
    eqn:Hmax;
    destruct (min_chunk_size self <=? current_length st) eqn:Hmin;
    cbn [andb flushed current_chunk].
  - split; [apply Forall_app; split; [done | by apply Forall_singleton]|].
    right; right. exists sentence. set_solver.
  - split; [done|]. apply Nat.leb_gt in Hmin.
    destruct Htr as (H0 & Hlo & Hhi).
    rewrite join_snoc. destruct (current_chunk st) as [|y l] eqn:Hc;
      cbn [truthy].
    + right; right. exists sentence. set_solver.
    + right; left. exists (join [space] (y :: l)), sentence.
      split; [set_solver|]. split; [done|]. lia.
  - split; [done|]. apply Nat.ltb_ge in Hmax.
    destruct Htr as (H0 & Hlo & Hhi). left.
    rewrite length_join_snoc. destruct (current_chunk st); cbn [truthy]; lia.
  - split; [done|]. apply Nat.ltb_ge in Hmax.
    destruct Htr as (H0 & Hlo & Hhi). left.
    rewrite length_join_snoc. destruct (current_chunk st); cbn [truthy]; lia.
Qed.

Lemma foldl_sizes self sentences :
  sizes_ok self (foldl (pack_step self) init_state sentences) sentences.
Proof.
  apply (foldl_invariant (sizes_ok self)).
  - split; [apply init_state_tracked|]. split; [constructor|].
    left. simpl. lia.
  - intros st seen x. apply pack_step_sizes.
Qed.

Lemma pack_sentences_sizes self sentences :
  Forall (size_ok self sentences) (pack_sentences self sentences).
Proof.
  unfold pack_sentences.
  destruct (foldl_sizes self sentences) as (_ & Hfl & Hcur).
  destruct (truthy _); [|done].
  apply Forall_app. split; [done | by apply Forall_singleton].
Qed.

Lemma over_max_sections :
  split_into_sections over_max_text =
  [{| sec_title := lit "Introduction"; sec_content := [over_max_text] |}].
Proof. vm_compute. reflexivity. Qed.

Lemma over_max_sentences :
  map length (re_split_sentences over_max_text) = [300; 600; 10].
Proof. vm_compute. reflexivity. Qed.

Lemma over_max_chunks :
  map (fun c => (section c, char_count c))
      (create_chunks default_chunker over_max_text) =
  [(lit "Introduction", 901); (lit "Introduction", 10)].
Proof. vm_compute. reflexivity. Qed.

Lemma over_max_not_single :
  Forall (fun s => length (strip s) <> 901) (re_split_sentences over_max_text).
Proof.
  apply (Forall_fmap (length ∘ strip) (fun n => n <> 901)).
  assert (Hl : (length ∘ strip <$> re_split_sentences over_max_text)
               = [300; 600; 10]) by (vm_compute; reflexivity).
  rewrite Hl. repeat constructor; lia.
Qed.

(** C2, as stated, fails: with the default limits (800, 400), a paragraph
    of three sentences of 300, 600 and 10 characters gives a first chunk of
    901 characters, which is neither the last chunk of its section nor a
    single sentence. *)
Lemma chunk_over_max_counterexample :
  ~ (forall (self : chunker) (text : str) (c : chunk),
        c ∈ create_chunks self text ->
        length (content c) <= max_chunk_size self \/
        (exists sec, sec ∈ split_into_sections text /\
           last (chunk_section self (extract_wife_info text) sec) = Some c) \/
        (exists sec, sec ∈ split_into_sections text /\
           single_sentence
             (re_split_sentences (join [space] (sec_content sec)))
             (content c))).
Proof.
  intros H.
  destruct (create_chunks default_chunker over_max_text) as [|c0 cs] eqn:Hcs;
    [by vm_compute in Hcs|].
  pose proof over_max_chunks as Hsizes.
  pose proof (create_chunks_count default_chunker over_max_text) as Hcount.
  rewrite Hcs in Hsizes, Hcount.
  destruct cs as [|c1 [|c2 cs]]; try discriminate Hsizes.
  injection Hsizes as _ Hn0 _ Hn1.
  apply Forall_cons in Hcount as [Hc0 Hcount].
  apply Forall_cons in Hcount as [Hc1 _].
  assert (Hlen : length (content c0) = 901) by congruence.
  assert (Hlen1 : length (content c1) = 10) by congruence.
  specialize (H default_chunker over_max_text c0).
  rewrite Hcs in H. specialize (H ltac:(left)).
  destruct H as [Hle | [(sec & Hsec & Hlast) | (sec & Hsec & s & Hs & Hc)]].
  - rewrite Hlen in Hle. cbn in Hle. lia.
  - rewrite over_max_sections in Hsec.
    apply list_elem_of_singleton in Hsec as ->.
    assert (Hall : flat_map (chunk_section default_chunker
                               (extract_wife_info over_max_text))
                            (split_into_sections over_max_text) = [c0; c1])
      by exact Hcs.
    rewrite over_max_sections in Hall. cbn [flat_map] in Hall.
    rewrite app_nil_r in Hall. rewrite Hall in Hlast.
    cbn in Hlast. congruence.
  - rewrite over_max_sections in Hsec.
    apply list_elem_of_singleton in Hsec as ->.
    cbn [sec_content join] in Hs.
    apply (f_equal length) in Hc. rewrite Hlen in Hc.
    pose proof over_max_not_single as Hall.
    rewrite Forall_forall in Hall. by apply (Hall s).
Qed.

(** After a flush [current_length] restarts without the separator it
    counts elsewhere: two sentences of 400 characters are joined into a
    chunk of 801. *)
Example over_max_by_one :
  map length (re_split_sentences by_one_text) = [400; 400; 400; 10] /\
  map char_count (create_chunks default_chunker by_one_text) = [400; 801; 10].
Proof. vm_compute. done. Qed.

(** *** Flushed chunks and the minimum *)

Lemma pack_step_flushed_min self st sentence :
  length_tracked st ->
  Forall (fun c => min_chunk_size self <= length c + 1) (flushed st) ->
  Forall (fun c => min_chunk_size self <= length c + 1)
         (flushed (pack_step self st sentence)).
Proof.
  intros (H0 & Hlo & Hhi) Hfl. unfold pack_step.
  destruct (truthy (strip sentence)); cbn [negb]; [|done].
  destruct (max_chunk_size self <? _); cbn [andb]; [|done].
  destruct (min_chunk_size self <=? current_length st) eqn:Hmin;
    cbn [flushed]; [|done].
  apply Nat.leb_le in Hmin.
  apply Forall_app. split; [done|]. apply Forall_singleton. lia.
Qed.

(** What the flush test does give: a chunk flushed before the end of its
    section is at most one character short of [min_chunk_size]
    ([current_length] counts one separator more than the joined buffer
    has, until the first flush). *)
Lemma flushed_near_min (self : chunker) (sentences : list str) :
  Forall (fun c => min_chunk_size self <= length c + 1)
         (flushed (foldl (pack_step self) init_state sentences)).
Proof.
  enough (H : length_tracked (foldl (pack_step self) init_state sentences) /\
              Forall (fun c => min_chunk_size self <= length c + 1)
                     (flushed (foldl (pack_step self) init_state sentences)))
    by apply H.
  apply (foldl_invariant (fun st _ => length_tracked st /\
           Forall (fun c => min_chunk_size self <= length c + 1) (flushed st))).
  - split; [apply init_state_tracked | constructor].
  - intros st _ x [Htr Hfl]. split.
    + by apply pack_step_tracked.
    + by apply pack_step_flushed_min.
Qed.

(** The last buffer is emitted whenever it is not empty. *)
Lemma final_buffer_emitted (self : chunker) (sentences : list str) :
  let st := foldl (pack_step self) init_state sentences in
  pack_sentences self sentences =
  flushed st ++
  (if truthy (current_chunk st) then [join [space] (current_chunk st)] else []).
Proof.
  cbn zeta. unfold pack_sentences. destruct (truthy _); [done|].
  by rewrite app_nil_r.
Qed.

(** C3 at its failing input: with the default limits (800, 400), a
    paragraph of two sentences of 399 and 402 characters (802 characters in
    all, so the section is oversized) gives two chunks of one section; the
    first, flushed before the end of the section, has 399 characters, below
    [min_chunk_size]. *)
Theorem flush_below_min_at_failing_input :
  length below_min_text = 802 /\
  map length (re_split_sentences below_min_text) = [399; 402] /\
  map (fun c => (section c, char_count c))
      (create_chunks default_chunker below_min_text) =
  [(lit "Introduction", 399); (lit "Introduction", 402)] /\
  map length
      (flushed (foldl (pack_step default_chunker) init_state
                      (re_split_sentences below_min_text))) = [399].
Proof. vm_compute. done. Qed.

(** *** The alias filter *)

Lemma count_alpha_le s : count_alpha s <= length s.
Proof.
  induction s as [|c s IH]; [done|].
  unfold count_alpha in *. simpl. destruct (isalpha c); lia.
Qed.

Lemma float_test_table : forallb float_test_exact (seq 0 21) = true.
Proof. vm_compute. reflexivity. Qed.

(** On the lengths the test lets through, the binary64 comparison
    [k > n * 0.7] is the exact comparison [10 k > 7 n]. *)
Lemma int_gt_float_exact n k :
  n <= 20 -> k <= n -> int_gt_float k (mul_0_7 n) = (7 * n <? 10 * k).
Proof.
  intros Hn Hk.
  pose proof float_test_table as Ht.
  rewrite forallb_forall in Ht.
  specialize (Ht n). unfold float_test_exact in Ht.
  rewrite forallb_forall in Ht.
  apply Bool.eqb_prop, Ht.
  - apply in_seq. lia.
  - apply in_seq. lia.
Qed.

Lemma accept_alias_spec alias :
  accept_alias alias = true <->
  3 <= length alias <= 20 /\ 7 * length alias < 10 * count_alpha alias.
Proof.
  unfold accept_alias. pose proof (count_alpha_le alias) as Hle.
  destruct (length alias <=? 20) eqn:H20.
  - apply Nat.leb_le in H20. rewrite int_gt_float_exact by done.
    rewrite !andb_true_iff, Nat.leb_le, Nat.ltb_lt. intuition lia.
  - apply Nat.leb_gt in H20. rewrite andb_false_r. cbn [andb].
    split; [done | lia].
Qed.

Lemma filter_aliases_spec matches a :
  a ∈ filter_aliases matches <->
  exists m, m ∈ matches /\ a = title (strip m) /\
            3 <= length (strip m) <= 20 /\
            7 * length (strip m) < 10 * count_alpha (strip m).
Proof.
  unfold filter_aliases. rewrite list_elem_of_In, in_flat_map. split.
  - intros (m & Hm & Ha). exists m. rewrite list_elem_of_In. split; [done|].
    destruct (accept_alias (strip m)) eqn:Hacc; [|by destruct Ha].
    apply accept_alias_spec in Hacc. destruct Ha as [<- | []]. done.
  - intros (m & Hm & -> & Hacc). exists m. rewrite <- list_elem_of_In.
    split; [done|].
    apply accept_alias_spec in Hacc. rewrite Hacc. by left.
Qed.

Lemma alias_text_candidates : alias_candidates alias_text = [alias_candidate].
Proof. vm_compute. reflexivity. Qed.

Lemma alias_text_aliases : info_aliases (extract_wife_info alias_text) = [].
Proof. vm_compute. reflexivity. Qed.

(** C7, as stated, fails: the candidate captured from
    "She is also known as ab cd e fg." has ten characters, seven of them
    letters (exactly 70%), and is not accepted. *)
Lemma alias_seventy_percent_counterexample :
  ~ (forall (text m : str),
        m ∈ alias_candidates text ->
        (title (strip m) ∈ info_aliases (extract_wife_info text) <->
         3 <= length (strip m) <= 20 /\
         7 * length (strip m) <= 10 * count_alpha (strip m))).
Proof.
  intros H. specialize (H alias_text alias_candidate).
  rewrite alias_text_candidates, alias_text_aliases in H.
  specialize (H ltac:(left)). destruct H as [_ H].
  assert (Hin : title (strip alias_candidate) ∈ @nil str).
  { apply H. vm_compute. lia. }
  by apply not_elem_of_nil in Hin.
Qed.

(** C7, amended: a string is in the alias set exactly when it is the
    title-cased, stripped form of a candidate captured by an introduction
    pattern whose stripped length is between 3 and 20 and of whose
    characters more than 70% are alphabetic ([sum(...) > len(alias) * 0.7],
    so exactly 70% is rejected); the set holds no duplicates. *)
Theorem alias_accepted_iff (text a : str) :
  (a ∈ info_aliases (extract_wife_info text) <->
   exists m, m ∈ alias_candidates text /\ a = title (strip m) /\
             3 <= length (strip m) <= 20 /\
             7 * length (strip m) < 10 * count_alpha (strip m)) /\
  NoDup (info_aliases (extract_wife_info text)).
Proof.
  unfold extract_wife_info. cbn [info_aliases]. split.
  - rewrite elem_of_elements, elem_of_list_to_set. apply filter_aliases_spec.
  - apply NoDup_elements.
Qed.

(** The cases named by the claim: five letters are accepted; 21 characters,
    or letters under 70%, are rejected. *)
Example alias_filter_cases :
  accept_alias (lit "aisha") = true /\
  accept_alias (lit "abcdefghijklmnopqrstu") = false /\
  accept_alias (lit "a b c d") = false.
Proof. vm_compute. done. Qed.

Example extract_example :
  extract_wife_info
    (lit "Umm al-Muminin Hafsah bint Umar, also known as Al Hafizah. She was nicknamed: the keeper, dubbed x1") =
  {| info_wife_name := Some (lit "Hafsah Bint Umar");
     info_aliases := [lit "The Keeper"; lit "Al Hafizah"] |}.
Proof. vm_compute. reflexivity. Qed.

(** Two marked paragraphs: two sections, one chunk each; the title is the
    marker, title-cased. *)
Example two_sections :
  map (fun c => (section c, content c))
      (create_chunks default_chunker
         (lit "Her Marriage. She married in year five." ++ [nl] ++
          lit "Battle Of Uhud. She nursed the wounded.")) =
  [(lit "Her Marriage", lit "Her Marriage. She married in year five.");
   (lit "Battle Of", lit "Battle Of Uhud. She nursed the wounded.")].
Proof. vm_compute. reflexivity. Qed.

Example re_split_example :
  re_split_sentences (lit "One. Two!  Three?x Four.") =
  [lit "One."; lit "Two!"; lit "Three?x Four."].
Proof. vm_compute. reflexivity. Qed.

End ChunkTheory.

(** ** The retrieval engine *)

Module RetrievalTheory.

Import Retrieval Scenarios TextLemmas.

(** *** The two sorts meet [argsort_spec] *)

Lemma insert_stable_perm x l : insert_stable x l ≡ₚ x :: l.
Proof.
  induction l as [|y l IH]; [done|]. simpl.
  destruct (Qle_bool y.1 x.1); [|done].
  rewrite IH. apply Permutation_swap.
Qed.

Lemma insert_stable_sorted x l :
  StronglySorted value_le l -> StronglySorted value_le (insert_stable x l).
Proof.
  induction 1 as [|y l Hl IH Hy]; simpl.
  - repeat constructor.
  - destruct (Qle_bool y.1 x.1) eqn:Hle.
    + apply Qle_bool_iff in Hle. constructor; [done|].
      rewrite insert_stable_perm. by constructor.
    + assert (Hlt : (x.1 < y.1)%Q).
      { apply Qnot_le_lt. intros Hc. apply Qle_bool_iff in Hc. congruence. }
      apply Qlt_le_weak in Hlt.
      constructor; [by constructor|].
      constructor; [done|].
      eapply Forall_impl; [exact Hy|]. intros z Hz.
      unfold value_le in *. by eapply Qle_trans.
Qed.

Lemma sort_stable_sorted l :
  StronglySorted value_le (sort_stable l) /\ sort_stable l ≡ₚ l.
Proof.
  unfold sort_stable.
  apply (foldl_invariant_prefix
           (fun acc seen => StronglySorted value_le acc /\ acc ≡ₚ seen)).
  - split; [constructor | done].
  - intros acc seen x rest _ [Hs Hp]. split.
    + by apply insert_stable_sorted.
    + rewrite insert_stable_perm, Hp. by rewrite Permutation_cons_append.
Qed.

Lemma indexed_lookup a i x :
  indexed a !! i = Some x <-> a !! i = Some x.1 /\ x.2 = i.
Proof.
  unfold indexed. rewrite list_lookup_imap. destruct (a !! i) as [s|]; simpl.
  - split.
    + intros [= <-]. done.
    + intros [[= ->] <-]. by destruct x.
  - split; [done | by intros [? _]].
Qed.

Lemma strongly_sorted_reverse {A} (R : relation A) l :
  StronglySorted R l -> StronglySorted (flip R) (reverse l).
Proof.
  induction 1 as [|x l Hl IH Hx]; [constructor|].
  rewrite reverse_cons.
  apply StronglySorted_app_2; [|exact IH|repeat constructor].
  intros y z Hy Hz. rewrite elem_of_reverse in Hy.
  apply list_elem_of_singleton in Hz as ->.
  rewrite Forall_forall in Hx. unfold flip. by apply Hx.
Qed.

Lemma strongly_sorted_image {A B} (R : relation A) (R' : relation B)
  (f : A -> B) l :
  (forall x y, x ∈ l -> y ∈ l -> R x y -> R' (f x) (f y)) ->
  StronglySorted R l -> StronglySorted R' (f <$> l).
Proof.
  intros Hf Hs. induction Hs as [|x l Hl IH Hx]; [constructor|].
  rewrite fmap_cons. constructor.
  - apply IH. intros y z Hy Hz. apply Hf; by right.
  - rewrite Forall_fmap. rewrite Forall_forall in Hx. apply Forall_forall.
    intros y Hy. apply Hf; [by left | by right | by apply Hx].
Qed.

Lemma indexed_snd a : (indexed a).*2 = seq 0 (length a).
Proof.
  unfold indexed. rewrite fmap_imap.
  rewrite (imap_ext _ (fun j _ => id j)) by done.
  rewrite imap_seq_0. by rewrite list_fmap_id.
Qed.

Lemma indexed_elem a x : x ∈ indexed a -> a !! x.2 = Some x.1.
Proof.
  intros Hx. apply list_elem_of_lookup in Hx as [i Hi].
  by apply indexed_lookup in Hi as [? ->].
Qed.

(** Sorting any arrangement of the indexed array gives an argsort. *)
Lemma sort_arranged_spec (a : list Q) (l : list (Q * nat)) :
  l ≡ₚ indexed a ->
  (sort_stable l).*2 ≡ₚ seq 0 (length a) /\
  StronglySorted (ascending a) (sort_stable l).*2.
Proof.
  intros Hl. destruct (sort_stable_sorted l) as [Hs Hp]. split.
  - rewrite <- indexed_snd. apply fmap_Permutation. by rewrite Hp.
  - apply (strongly_sorted_image value_le); [|done].
    intros x y Hx Hy Hxy. rewrite Hp, Hl in Hx, Hy.
    apply indexed_elem in Hx, Hy. by exists x.1, y.1.
Qed.

Lemma stable_argsort_spec : argsort_spec stable_argsort.
Proof. intros a. by apply sort_arranged_spec. Qed.

Lemma reversing_argsort_spec : argsort_spec reversing_argsort.
Proof. intros a. apply sort_arranged_spec. apply reverse_Permutation. Qed.

(** *** The three best, for any [argsort] that meets its specification *)

Section Top.

Variable w : services.
Hypothesis Hsort : argsort_spec (argsort w).


Lemma argsort_elem a i : i ∈ argsort w a <-> i < length a.
Proof. destruct (Hsort a) as [Hp _]. rewrite Hp, elem_of_seq. lia. Qed.


Lemma top_indices_nodup a : NoDup (top_indices w a).
Proof.
  unfold top_indices. rewrite reverse_Permutation.
  apply (sublist_NoDup _ (argsort w a)); [|apply sublist_drop].
  destruct (Hsort a) as [Hp _]. rewrite Hp. apply NoDup_seq.
Qed.

Lemma top_indices_sorted a :
  StronglySorted (flip (ascending a)) (top_indices w a).
Proof.
  unfold top_indices. apply strongly_sorted_reverse.
  apply (StronglySorted_app_1_r _ (take (length (argsort w a) - 3) (argsort w a))).
  rewrite take_drop. apply Hsort.
Qed.

Lemma top_indices_select a i j :
  i ∈ top_indices w a -> j < length a -> j ∉ top_indices w a -> ascending a j i.
Proof.
  unfold top_indices. rewrite !elem_of_reverse. intros Hi Hj Hnj.
  assert (Hin : j ∈ argsort w a) by by apply argsort_elem.
  rewrite <- (take_drop (length (argsort w a) - 3) (argsort w a)) in Hin.
  apply elem_of_app in Hin as [Hin | Hin]; [|done].
  destruct (Hsort a) as [_ Hs].
  rewrite <- (take_drop (length (argsort w a) - 3) (argsort w a)) in Hs.
  apply (StronglySorted_app_1_elem_of _ _ _ j i Hs Hin Hi).
Qed.

Lemma top_indices_bound a i : i ∈ top_indices w a -> i < length a.
Proof.
  unfold top_indices. rewrite elem_of_reverse. intros Hi.
  apply argsort_elem.
  rewrite <- (take_drop (length (argsort w a) - 3) (argsort w a)).
  apply elem_of_app. by right.
Qed.



Lemma ascending_le a i j si sj :
  ascending a j i -> a !! i = Some si -> a !! j = Some sj -> (sj <= si)%Q.
Proof.
  intros (sj' & si' & Hj & Hi & Hr) Hsi Hsj.
  rewrite Hsi in Hi. rewrite Hsj in Hj. by injection Hi as <-; injection Hj as <-.
Qed.

End Top.



(** With the other admissible order of equal values the same table gives
    the ids 0, 1, 2: the order of equally similar chunks is the one
    [np.argsort] happens to leave, not one the program fixes. *)
Example tied_top_indices_reversing :
  top_indices (reversing_services (up_services [])) [1%Q; 1%Q; 1%Q; 1%Q]
  = [0; 1; 2].
Proof. vm_compute. reflexivity. Qed.




(** *** Nothing loaded, and upstream failures *)

Lemma run_query_no_rows w q :
  run_query w (Some []) q =
  (match post_embed w [q] with
   | Failed => Returned embed_failed_msg
   | Json None => Raised KeyError
   | Json (Some []) => Raised IndexError
   | Json (Some (_ :: _)) => Raised ValueError
   end, [EmbedCall [q]]).
Proof.
  unfold run_query, perform_rag_retrieval, create_embedding, bind, call_embed.
  cbn. destruct (post_embed w [q]) as [|[[|e es]|]]; reflexivity.
Qed.

Lemma run_query_embed_failed w df q :
  post_embed w [q] = Failed ->
  run_query w (Some df) q = (Returned embed_failed_msg, [EmbedCall [q]]).
Proof.
  intros H.
  unfold run_query, perform_rag_retrieval, create_embedding, bind, call_embed.
  cbn. rewrite H. reflexivity.
Qed.

(** What a query does once the embedding reply is in. *)
Lemma run_query_unfold w df q :
  run_query w (Some df) q =
  match post_embed w [q] with
  | Failed => (Returned embed_failed_msg, [EmbedCall [q]])
  | Json None => (Raised KeyError, [EmbedCall [q]])
  | Json (Some []) => (Raised IndexError, [EmbedCall [q]])
  | Json (Some (v :: _)) =>
      match df with
      | [] => (Raised ValueError, [EmbedCall [q]])
      | _ :: _ =>
          match similarities_of w df v with
          | None => (Raised ValueError, [EmbedCall [q]])
          | Some sims =>
              match context_chunks w df (top_indices w sims) with
              | None => (Raised IndexError, [EmbedCall [q]])
              | Some chunks =>
                  inference w (build_prompt w (join [nl; nl] chunks) q)
                            [EmbedCall [q]]
              end
          end
      end
  end.
Proof.
  unfold run_query, perform_rag_retrieval, create_embedding, bind, call_embed.
  cbn [truthy negb orb bool_decide decide_rel].
  cbn -[build_prompt context_chunks similarities_of top_indices inference].
  destruct (post_embed w [q]) as [|[[|v vs]|]]; try reflexivity.
  destruct df as [|r df]; [reflexivity|].
  unfold ret, raise.
  cbn -[build_prompt context_chunks similarities_of top_indices inference].
  destruct (similarities_of w (r :: df) v) as [sims|]; [|reflexivity].
  destruct (context_chunks w (r :: df) (top_indices w sims)); reflexivity.
Qed.

Lemma inference_calls w p tr :
  (inference w p tr).2 = tr \/ (inference w p tr).2 = tr ++ [GenerateCall p].
Proof.
  unfold inference. destruct (truthy (OLLAMA_GENERATE_URL w)); cbn.
  - right. unfold bind, call_generate. cbn.
    destruct (post_generate w p) as [|[t|]]; reflexivity.
  - left. reflexivity.
Qed.

Lemma inference_failed w p tr :
  (inference w p tr).2 = tr ++ [GenerateCall p] ->
  post_generate w p = Failed ->
  (inference w p tr).1 = Returned generate_failed_msg.
Proof.
  unfold inference. destruct (truthy (OLLAMA_GENERATE_URL w)); cbn.
  - unfold bind, call_generate. cbn. intros _ ->. reflexivity.
  - intros H. apply (f_equal length) in H. rewrite length_app in H.
    cbn in H. lia.
Qed.

(** Each endpoint is called at most once in a query, the embedding one
    first. *)
Lemma run_query_calls w df q :
  (run_query w (Some df) q).2 = [EmbedCall [q]] \/
  exists p, (run_query w (Some df) q).2 = [EmbedCall [q]; GenerateCall p].
Proof.
  rewrite run_query_unfold.
  destruct (post_embed w [q]) as [|[[|v vs]|]]; try (left; reflexivity).
  destruct df as [|r df]; [left; reflexivity|].
  destruct (similarities_of w (r :: df) v) as [sims|]; [|left; reflexivity].
  destruct (context_chunks w (r :: df) (top_indices w sims)) as [chunks|];
    [|left; reflexivity].
  destruct (inference_calls w (build_prompt w (join [nl; nl] chunks) q)
              [EmbedCall [q]]) as [H | H].
  - left. exact H.
  - right. eexists. exact H.
Qed.

Lemma run_query_generate_failed w df q p :
  (run_query w (Some df) q).2 = [EmbedCall [q]; GenerateCall p] ->
  post_generate w p = Failed ->
  (run_query w (Some df) q).1 = Returned generate_failed_msg.
Proof.
  rewrite run_query_unfold.
  destruct (post_embed w [q]) as [|[[|v vs]|]]; try done.
  destruct df as [|r df]; [done|].
  destruct (similarities_of w (r :: df) v) as [sims|]; [|done].
  destruct (context_chunks w (r :: df) (top_indices w sims)) as [chunks|];
    [|done].
  intros Hc Hp.
  destruct (inference_calls w (build_prompt w (join [nl; nl] chunks) q)
              [EmbedCall [q]]) as [H | H]; rewrite H in Hc; [done|].
  injection Hc as <-. by apply inference_failed.
Qed.

(** C4, as stated, fails: with nothing loaded the search does not fail; it
    returns a string the way an answer is returned, and a loaded index
    whose generation service answers with that text gives the same
    result. *)
Lemma empty_index_counterexample :
  ~ (forall (w : services) (q : str),
        exists e : exn, (run_query w None q).1 = Raised e) /\
  (exists (w : services) (df : list (row w)) (q : str),
      df <> [] /\ (run_query w (Some df) q).1 = (run_query w None q).1).
Proof.
  split.
  - intros H. destruct (H (up_services []) []) as [e He]. discriminate He.
  - exists (up_services not_loaded_msg),
           (tied_rows (up_services not_loaded_msg) 0), (lit "Who was Hafsah?").
    split; [done|]. vm_compute. reflexivity.
Qed.

(** C4, amended: when nothing is loaded ([DF is None]) the search returns
    the fixed string "The knowledge base is not loaded." as its ordinary
    result, without any external call; when the loaded table has no row,
    the embedding is requested once and the search then raises (a
    [ValueError] when a query vector came back).  No result list, empty or
    not, is ever returned, and no error kind of its own marks the empty
    index. *)
Theorem empty_index_outcome (w : services) (q : str) :
  run_query w None q = (Returned not_loaded_msg, []) /\
  run_query w (Some []) q =
  (match post_embed w [q] with
   | Failed => Returned embed_failed_msg
   | Json None => Raised KeyError
   | Json (Some []) => Raised IndexError
   | Json (Some (_ :: _)) => Raised ValueError
   end, [EmbedCall [q]]).
Proof. split; [reflexivity | apply run_query_no_rows]. Qed.

(** C9, as stated, fails: when the embedding call fails, and when the
    generation call fails, the query returns a string (for generation, the
    apology); it does not raise. *)
Lemma upstream_failure_counterexample :
  ~ (forall (w : services) (df : list (row w)) (q : str),
        post_embed w [q] = Failed ->
        exists e : exn, (run_query w (Some df) q).1 = Raised e) /\
  ~ (forall (w : services) (df : list (row w)) (q p : str),
        (run_query w (Some df) q).2 = [EmbedCall [q]; GenerateCall p] ->
        post_generate w p = Failed ->
        exists e : exn, (run_query w (Some df) q).1 = Raised e).
Proof.
  split.
  - intros H.
    destruct (H embed_down_services (tied_rows embed_down_services 0) []
                eq_refl) as [e He].
    vm_compute in He. discriminate He.
  - intros H.
    destruct (run_query_calls generate_down_services
                (tied_rows generate_down_services 0) [])
      as [Hc | [p Hp]]; [vm_compute in Hc; discriminate Hc|].
    destruct (H generate_down_services (tied_rows generate_down_services 0)
                [] p Hp eq_refl) as [e He].
    rewrite (run_query_generate_failed _ _ _ p Hp eq_refl) in He.
    discriminate He.
Qed.

(** C9, amended: a query on a loaded table calls the embedding service
    once and the generation service at most once (no retry); when the
    embedding call fails the query returns the fixed string
    "Failed to create embedding. ..." and generation is not called; when
    the generation call fails it returns the fixed apology string
    "Sorry, I couldn't connect ...".  Both are ordinary string results. *)
Theorem upstream_failure_outcome (w : services) (df : list (row w)) (q : str) :
  let r := run_query w (Some df) q in
  (r.2 = [EmbedCall [q]] \/ exists p, r.2 = [EmbedCall [q]; GenerateCall p]) /\
  (post_embed w [q] = Failed ->
   r = (Returned embed_failed_msg, [EmbedCall [q]])) /\
  (forall p, r.2 = [EmbedCall [q]; GenerateCall p] ->
             post_generate w p = Failed ->
             r.1 = Returned generate_failed_msg).
Proof.
  cbn zeta. split; [apply run_query_calls|]. split.
  - apply run_query_embed_failed.
  - intros p. apply run_query_generate_failed.
Qed.

Example generation_down_run :
  (run_query generate_down_services (Some (tied_rows generate_down_services 0))
             (lit "Who was Hafsah?")).1 = Returned generate_failed_msg.
Proof. vm_compute. reflexivity. Qed.

End RetrievalTheory.

(** ** The front end *)

Module BotTheory.

Import Bot Scenarios TextLemmas.

Lemma part_message_header n i chunk :
  part_message n i chunk = part_header n i ++ [nl] ++ chunk.
Proof.
  unfold part_message, part_header. destruct (i =? 0); by rewrite <- !app_assoc.
Qed.

Lemma slices_concat m k : forall r : str,
  length r <= k * m ->
  concat (map (fun i => slice r i (i + m)) (map (fun j => j * m) (seq 0 k))) = r.
Proof.
  induction k as [|k IH]; intros r Hr.
  - destruct r; [done | simpl in Hr; lia].
  - rewrite <- cons_seq, <- fmap_S_seq. cbn [map]. rewrite concat_cons.
    unfold slice at 1. rewrite drop_0, Nat.mul_0_l, Nat.add_0_l, Nat.sub_0_r.
    transitivity (take m r ++ drop m r); [|apply take_drop]. f_equal.
    rewrite <- (IH (drop m r)) by (rewrite length_drop; lia).
    f_equal. change (S <$> seq 0 k) with (map S (seq 0 k)).
    rewrite !map_map. apply map_ext. intros j.
    unfold slice. rewrite drop_drop.
    replace (S j * m + m - S j * m) with m by lia.
    replace (j * m + m - j * m) with m by lia.
    replace (S j * m) with (m + j * m) by lia. done.
Qed.

Lemma response_chunks_concat r : concat (response_chunks r) = r.
Proof.
  unfold response_chunks, range_step. apply slices_concat.
  unfold MAX_CHARS.
  pose proof (Nat.div_mod_eq (length r + 2000 - 1) 2000).
  pose proof (Nat.mod_upper_bound (length r + 2000 - 1) 2000). lia.
Qed.

Lemma response_chunks_length r :
  length (response_chunks r) = (length r + 1999) / 2000.
Proof.
  unfold response_chunks, range_step, MAX_CHARS.
  rewrite !length_map, length_seq. f_equal. lia.
Qed.

Lemma response_chunks_bound r :
  Forall (fun s => length s <= 2000) (response_chunks r).
Proof.
  unfold response_chunks. apply Forall_forall. intros s Hs.
  apply list_elem_of_In, in_map_iff in Hs as (i & <- & _).
  unfold slice, MAX_CHARS. rewrite length_take. lia.
Qed.

(** C10: a response of at most 2000 characters is sent unchanged as one
    message; a longer one is cut into ceil(length / 2000) consecutive
    slices of at most 2000 characters, each sent after its part-number
    header line, and the slices, concatenated, are the response. *)
Theorem send_response_slices (response_text : str) :
  exists slices,
    concat slices = response_text /\
    Forall (fun s => length s <= 2000) slices /\
    length slices = (length response_text + 1999) / 2000 /\
    send_response response_text =
      if length response_text <=? 2000 then [response_text]
      else imap (fun i s => part_header (length slices) i ++ [nl] ++ s) slices.
Proof.
  exists (response_chunks response_text).
  split; [apply response_chunks_concat|].
  split; [apply response_chunks_bound|].
  split; [apply response_chunks_length|].
  unfold send_response, MAX_CHARS.
  destruct (2000 <? length response_text) eqn:Hlt.
  - apply Nat.ltb_lt in Hlt. destruct (length response_text <=? 2000) eqn:Hle.
    + apply Nat.leb_le in Hle. lia.
    + apply imap_ext. intros i s _. apply part_message_header.
  - apply Nat.ltb_ge in Hlt. apply Nat.leb_le in Hlt. by rewrite Hlt.
Qed.

Example send_long_response :
  map (take 35) (send_response (letters 4001 "a")) =
  [lit "**[Detailed Response - Part 1/3]**" ++ [nl];
   lit "**[Part 2/3]**" ++ [nl] ++ letters 20 "a";
   lit "**[Part 3/3]**" ++ [nl] ++ lit "a"] /\
  map length (send_response (letters 4001 "a")) = [2035; 2015; 16].
Proof. vm_compute. done. Qed.

(** An exception of the retrieval becomes the fixed internal-error
    message. *)
Example no_rows_message :
  azwaj_query (up_services (lit "An answer.")) (Some []) (lit "Who?") =
  [lit "An internal error occurred while trying to process your request."].
Proof. vm_compute. reflexivity. Qed.

End BotTheory.

(** * Further properties *)

(** ** The chunking engine *)

Module ChunkExtras.

Import Chunk ChunkReport Scenarios Shapes MoreScenarios TextLemmas ChunkTheory.

(** *** Section markers *)

Lemma startswith_nil s : startswith s [] = true.
Proof. by destruct s. Qed.

Lemma startswith_common p a b :
  startswith p a = true -> startswith p b = true ->
  startswith a b = true \/ startswith b a = true.
Proof.
  revert a b. induction p as [|c p IH]; intros a b Ha Hb.
  - destruct a; [|done]. right. apply startswith_nil.
  - destruct a as [|x a]; [right; apply startswith_nil|].
    destruct b as [|y b]; [left; apply startswith_nil|].
    cbn in Ha, Hb. apply andb_prop in Ha as [Hx Ha], Hb as [Hy Hb].
    apply Ascii.eqb_eq in Hx, Hy. subst x y.
    destruct (IH a b Ha Hb) as [H | H]; [left | right]; cbn;
      by rewrite Ascii.eqb_refl.
Qed.

Lemma markers_prefix_free :
  forallb (fun a => forallb (fun b => implb (startswith a b) (str_eqb a b))
                            section_markers) section_markers = true.
Proof. vm_compute. reflexivity. Qed.

Lemma marker_unique p a b :
  a ∈ section_markers -> b ∈ section_markers ->
  startswith p a = true -> startswith p b = true -> a = b.
Proof.
  intros Ha Hb Hpa Hpb.
  pose proof markers_prefix_free as Ht. rewrite forallb_forall in Ht.
  destruct (startswith_common p a b Hpa Hpb) as [H | H].
  - specialize (Ht a (proj1 (list_elem_of_In _ _) Ha)).
    rewrite forallb_forall in Ht.
    specialize (Ht b (proj1 (list_elem_of_In _ _) Hb)).
    rewrite H in Ht. cbn in Ht. unfold str_eqb in Ht.
    by apply bool_decide_eq_true in Ht.
  - specialize (Ht b (proj1 (list_elem_of_In _ _) Hb)).
    rewrite forallb_forall in Ht.
    specialize (Ht a (proj1 (list_elem_of_In _ _) Ha)).
    rewrite H in Ht. cbn in Ht. unfold str_eqb in Ht.
    by apply bool_decide_eq_true in Ht.
Qed.

(** X1: a paragraph starts a new section with marker [m] exactly when [m]
    is a marker of the vocabulary and the lowercased paragraph starts with
    it: no marker is a prefix of another, so at most one can match and the
    order of [section_markers] never decides. *)
Theorem find_marker_any_order (para_lower marker : str) :
  find_marker para_lower = Some marker <->
  marker ∈ section_markers /\ startswith para_lower marker = true.
Proof.
  unfold find_marker. split.
  - intros H. apply find_some in H as [Hin Hs]. by rewrite list_elem_of_In.
  - intros [Hin Hs].
    destruct (List.find _ section_markers) as [m|] eqn:Hf.
    + apply find_some in Hf as [Hm Hms]. f_equal.
      apply list_elem_of_In in Hm.
      by apply (marker_unique para_lower).
    + apply list_elem_of_In in Hin.
      pose proof (find_none _ _ Hf marker Hin) as Hn. cbn in Hn. congruence.
Qed.

(** *** Sections *)




Lemma is_marker_paragraph_some para marker :
  find_marker (lower para) = Some marker -> is_marker_paragraph para = true.
Proof. intros H. unfold is_marker_paragraph. rewrite H. by apply bool_decide_eq_true. Qed.

Lemma is_marker_paragraph_none para :
  find_marker (lower para) = None -> is_marker_paragraph para = false.
Proof.
  intros H. unfold is_marker_paragraph. rewrite H. apply bool_decide_eq_false.
  by intros [? ?].
Qed.

Lemma sections_snoc sections cur :
  Forall section_wf sections -> Forall section_marked (drop 1 sections) ->
  section_wf cur -> (sections <> [] -> section_marked cur) ->
  Forall section_wf (sections ++ [cur]) /\
  Forall section_marked (drop 1 (sections ++ [cur])).
Proof.
  intros Hwf Hm Hc Hcm. split.
  - apply Forall_app. split; [done | by apply Forall_singleton].
  - destruct sections as [|s sections]; [by constructor|].
    cbn [app drop] in *. rewrite drop_0 in *.
    apply Forall_app. split; [done|]. apply Forall_singleton. by apply Hcm.
Qed.

Lemma section_step_inv st para : sections_inv st -> sections_inv (section_step st para).
Proof.
  destruct st as [sections cur]. unfold sections_inv. cbn [fst snd].
  intros (Hwf & Hm & Hcur). unfold section_step.
  destruct (find_marker (lower para)) as [marker|] eqn:Hf; cbn [fst snd].
  - assert (Hnew : section_wf {| sec_title := title marker; sec_content := [para] |}).
    { exists para, []. cbn. unfold title_for. by rewrite Hf. }
    assert (Hnm : section_marked {| sec_title := title marker; sec_content := [para] |}).
    { exists para, []. split; [done|]. by eapply is_marker_paragraph_some. }
    destruct Hcur as [(Hc & Hs & Ht) | (Hc & Hcm)].
    + rewrite Hc. cbn [truthy]. subst sections.
      split; [constructor|]. split; [constructor|]. right. done.
    + destruct Hc as (p & ps & Hc & Hrest). rewrite Hc. cbn [truthy].
      destruct (sections_snoc sections cur Hwf Hm) as [H1 H2];
        [by exists p, ps | done |].
      split; [done|]. split; [done|]. right. done.
  - split; [done|]. split; [done|]. right.
    apply is_marker_paragraph_none in Hf as Hn.
    destruct Hcur as [(Hc & Hs & Ht) | (Hc & Hcm)].
    + split; [|by subst sections]. exists para, []. cbn. rewrite Hc.
      split; [done|]. split; [|constructor]. rewrite Ht. unfold title_for.
      by rewrite Hf.
    + destruct Hc as (p & ps & Hc & Ht & Hps). split.
      * exists p, (ps ++ [para]). cbn. rewrite Hc. split; [done|].
        split; [done|]. apply Forall_app. split; [done|]. by apply Forall_singleton.
      * intros Hne. destruct (Hcm Hne) as (p' & ps' & Hc' & Hp').
        exists p', (ps' ++ [para]). cbn. rewrite Hc'. done.
Qed.

Lemma split_into_sections_inv text :
  Forall section_wf (split_into_sections text) /\
  Forall section_marked (drop 1 (split_into_sections text)).
Proof.
  unfold split_into_sections.
  set (init := ([], {| sec_title := lit "Introduction"; sec_content := [] |})).
  assert (Hinv : sections_inv (foldl section_step init (paragraphs text))).
  { apply (foldl_invariant (fun st _ => sections_inv st)).
    - split; [constructor|]. split; [constructor|]. left. done.
    - intros st _ x. apply section_step_inv. }
  destruct (foldl section_step init (paragraphs text)) as [sections cur].
  destruct Hinv as (Hwf & Hm & Hcur). cbn [fst snd] in *.
  destruct Hcur as [(Hc & Hs & Ht) | (Hc & Hcm)].
  - rewrite Hc. cbn [truthy]. done.
  - destruct Hc as (p & ps & Hc & Hrest). rewrite Hc. cbn [truthy].
    apply sections_snoc; [done | done | by exists p, ps | done].
Qed.



(** X2: every section has at least one paragraph, and only its first
    paragraph can start with a marker; its title is the title-cased marker
    that paragraph starts with, or "Introduction" when it starts with
    none; every section after the first starts with a marker. *)
Theorem sections_structure (text : str) :
  Forall (fun sec =>
            exists p ps, sec_content sec = p :: ps /\
                         sec_title sec = title_for p /\
                         Forall (fun q => is_marker_paragraph q = false) ps)
         (split_into_sections text) /\
  Forall (fun sec => exists p ps, sec_content sec = p :: ps /\
                                  is_marker_paragraph p = true)
         (drop 1 (split_into_sections text)).
Proof. apply split_into_sections_inv. Qed.

Lemma sections_expected_snoc seen x :
  sections_expected (seen ++ [x]) =
  if is_marker_paragraph x then sections_expected seen + 1
  else if truthy seen then sections_expected seen else 1.
Proof.
  unfold sections_expected. rewrite filter_app, length_app.
  destruct seen as [|p seen]; cbn [app truthy].
  - destruct (is_marker_paragraph x) eqn:Hx.
    + rewrite filter_cons_True by done. simpl. lia.
    + rewrite filter_cons_False by (by rewrite Hx). simpl. lia.
  - destruct (is_marker_paragraph x) eqn:Hx.
    + rewrite (filter_cons_True _ x) by done. simpl. lia.
    + rewrite (filter_cons_False _ x) by (by rewrite Hx). simpl. lia.
Qed.

Lemma section_step_count st seen para :
  count_inv st seen -> count_inv (section_step st para) (seen ++ [para]).
Proof.
  destruct st as [sections cur]. unfold count_inv. cbn [fst snd].
  intros [Hlen Hempty]. rewrite sections_expected_snoc. unfold section_step.
  destruct (find_marker (lower para)) as [marker|] eqn:Hf; cbn [fst snd].
  - rewrite (is_marker_paragraph_some _ _ Hf). cbn [sec_content truthy].
    split; [|done].
    destruct (truthy (sec_content cur)); [rewrite length_app; simpl|]; lia.
  - rewrite (is_marker_paragraph_none _ Hf). cbn [sec_content].
    split; [|by destruct (sec_content cur)].
    destruct (sec_content cur) as [|q qs] eqn:Hc; cbn [truthy app] in *.
    + rewrite (Hempty eq_refl) in *. cbn [truthy]. cbn in Hlen. lia.
    + destruct seen as [|s seen]; cbn [truthy]; [|lia].
      cbn in Hlen. lia.
Qed.

(** X3: the number of sections is the number of paragraphs that start with
    a marker, plus one when the first paragraph does not (the
    "Introduction" section). *)
Theorem sections_counted (text : str) :
  length (split_into_sections text) = sections_expected (paragraphs text).
Proof.
  unfold split_into_sections.
  set (init := ([], {| sec_title := lit "Introduction"; sec_content := [] |})).
  assert (Hinv : count_inv (foldl section_step init (paragraphs text)) (paragraphs text)).
  { apply (foldl_invariant count_inv).
    - split; done.
    - intros st seen x. apply section_step_count. }
  destruct (foldl section_step init (paragraphs text)) as [sections cur].
  destruct Hinv as [Hlen _]. cbn [fst snd] in Hlen.
  destruct (truthy (sec_content cur)); [rewrite length_app; simpl|]; lia.
Qed.

(** *** Blank texts *)

Lemma remove_ws_nil_lstrip s : remove_ws s = [] -> lstrip s = [].
Proof.
  induction s as [|c s IH]; [done|]. unfold remove_ws. cbn [lstrip].
  destruct (isspace c) eqn:Hc.
  - rewrite filter_cons_False by (by rewrite Hc). apply IH.
  - by rewrite filter_cons_True.
Qed.

(** A text without words strips to nothing. *)
Lemma words_nil_strip s : words s = [] -> strip s = [].
Proof.
  intros H. unfold strip.
  rewrite (remove_ws_nil_lstrip s); [done|].
  by rewrite <- concat_words, H.
Qed.

Lemma truthy_strip_words s : truthy (strip s) = true -> words s <> [].
Proof. intros H Hw. by rewrite (words_nil_strip s Hw) in H. Qed.

Lemma paragraphs_worded text : Forall (fun p => words p <> []) (paragraphs text).
Proof.
  unfold paragraphs. induction (split_char nl text) as [|p ps IH]; [constructor|].
  cbn [omap list_omap]. destruct (truthy (strip p)) eqn:Hp; [|done].
  constructor; [|done]. rewrite words_strip. by apply truthy_strip_words.
Qed.

Lemma tokens_nil l : Forall (fun p => words p <> []) l -> tokens l = [] -> l = [].
Proof.
  intros Hl Ht. destruct l as [|p l]; [done|].
  apply Forall_cons in Hl as [Hp _]. unfold tokens in Ht. cbn in Ht.
  by apply app_nil in Ht as [? _].
Qed.

Lemma paragraphs_blank text : words text = [] <-> paragraphs text = [].
Proof.
  rewrite <- tokens_paragraphs. split.
  - apply tokens_nil, paragraphs_worded.
  - by intros ->.
Qed.

Lemma flat_map_nil {A B} (f : A -> list B) l :
  flat_map f l = [] <-> Forall (fun x => f x = []) l.
Proof.
  induction l as [|x l IH]; [by split; [constructor|]|]. cbn [flat_map].
  rewrite Forall_cons, <- IH. split.
  - intros H. by apply app_nil in H.
  - by intros [-> ->].
Qed.

Lemma create_chunks_nil self text :
  create_chunks self text = [] <-> words text = [].
Proof.
  split.
  - intros H. rewrite <- tokens_paragraphs, <- (create_chunks_tokens self).
    by rewrite H.
  - intros H. apply paragraphs_blank in H.
    unfold create_chunks, split_into_sections. by rewrite H.
Qed.

(** X4: a chapter gives no chunk exactly when it holds no word (it is
    empty or all whitespace); and [process_chapters] ends in the division
    by zero of its statistics, saving nothing, exactly when every chapter
    is such (or there is none). *)
Theorem no_chunks_iff_blank (self : chunker) (chapter_text : str)
  (chapters : list str) :
  (create_chunks self chapter_text = [] <-> words chapter_text = []) /\
  (process_chapters chapters = None <->
   Forall (fun chapter => words chapter = []) chapters).
Proof.
  split; [apply create_chunks_nil|].
  unfold process_chapters, post_process.
  assert (Hall : Forall (fun t => create_chunks default_chunker t = []) chapters
                 <-> Forall (fun t => words t = []) chapters).
  { apply Forall_iff. intros t. apply create_chunks_nil. }
  rewrite <- Hall, <- flat_map_nil.
  destruct (flat_map (create_chunks default_chunker) chapters); cbn; split; done.
Qed.

(** *** Every chunk holds a word *)

Lemma join_worded l :
  l <> [] -> Forall (fun p => words p <> []) l -> words (join [space] l) <> [].
Proof.
  intros Hne Hl Hw. rewrite words_join in Hw by done.
  by apply tokens_nil in Hw.
Qed.

Lemma sections_worded text :
  Forall (fun sec => sec_content sec <> [] /\
                     Forall (fun p => words p <> []) (sec_content sec))
         (split_into_sections text).
Proof.
  apply Forall_forall. intros sec Hsec. split.
  - destruct (split_into_sections_inv text) as [Hwf _].
    rewrite Forall_forall in Hwf.
    destruct (Hwf sec Hsec) as (p & ps & -> & _). done.
  - apply Forall_forall. intros p Hp.
    pose proof (paragraphs_worded text) as Hall. rewrite Forall_forall in Hall.
    apply Hall. rewrite <- split_into_sections_contents.
    apply list_elem_of_In, in_flat_map. exists sec.
    by rewrite <- !list_elem_of_In.
Qed.


Lemma pack_step_worded self st sentence :
  0 < min_chunk_size self ->
  worded_inv st -> worded_inv (pack_step self st sentence).
Proof.
  intros Hmin (Htr & Hfl & Hcur).
  split; [by apply pack_step_tracked|]. unfold pack_step.
  destruct (truthy (strip sentence)) eqn:Hs; cbn [negb]; [|done].
  assert (Hw : words (strip sentence) <> []).
  { rewrite words_strip. by apply truthy_strip_words. }
  destruct (max_chunk_size self <? _); cbn [andb].
  - destruct (min_chunk_size self <=? current_length st) eqn:Hm;
      cbn [flushed current_chunk].
    + apply Nat.leb_le in Hm. destruct Htr as (H0 & _ & _). split.
      * apply Forall_app. split; [done|]. apply Forall_singleton.
        apply join_worded; [|done]. intros Hnil. specialize (H0 Hnil). lia.
      * by apply Forall_singleton.
    + split; [done|]. apply Forall_app. split; [done | by apply Forall_singleton].
  - cbn [flushed current_chunk]. split; [done|].
    apply Forall_app. split; [done | by apply Forall_singleton].
Qed.

Lemma pack_sentences_worded self sentences :
  0 < min_chunk_size self ->
  Forall (fun c => words c <> []) (pack_sentences self sentences).
Proof.
  intros Hmin. unfold pack_sentences.
  assert (Hinv : worded_inv (foldl (pack_step self) init_state sentences)).
  { apply (foldl_invariant (fun st _ => worded_inv st)).
    - split; [apply init_state_tracked|]. split; constructor.
    - intros st _ x. by apply pack_step_worded. }
  destruct Hinv as (_ & Hfl & Hcur).
  destruct (current_chunk _) as [|x l] eqn:Hc; cbn [truthy]; [done|].
  apply Forall_app. split; [done|]. apply Forall_singleton.
  by apply join_worded.
Qed.

(** X5: with a positive [min_chunk_size], every chunk of every chapter
    holds at least one word: no chunk is empty or blank. *)
Theorem chunks_hold_words (self : chunker) (chapter_text : str) :
  0 < min_chunk_size self ->
  Forall (fun c => words (content c) <> []) (create_chunks self chapter_text).
Proof.
  intros Hmin. unfold create_chunks. apply Forall_forall. intros c Hc.
  apply list_elem_of_In, in_flat_map in Hc as (sec & Hsec & Hc).
  apply list_elem_of_In in Hsec.
  pose proof (sections_worded chapter_text) as Hall.
  rewrite Forall_forall in Hall. destruct (Hall sec Hsec) as [Hne Hw].
  unfold chunk_section in Hc. apply in_map_iff in Hc as (t & <- & Ht).
  cbn [content make_chunk]. unfold section_contents in Ht.
  destruct (_ <=? _).
  - destruct Ht as [<- | []]. by apply join_worded.
  - apply list_elem_of_In in Ht.
    pose proof (pack_sentences_worded self
                  (re_split_sentences (join [space] (sec_content sec))) Hmin) as Hp.
    rewrite Forall_forall in Hp. by apply Hp.
Qed.

Lemma chunks_hold_words_witness :
  0 < min_chunk_size default_chunker /\
  Forall (fun c => words (content c) <> [])
         (create_chunks default_chunker chapter_text).
Proof.
  split; [cbn; lia|]. apply (chunks_hold_words default_chunker chapter_text).
  cbn. lia.
Defined.

(** Without a minimum an empty chunk can come out. *)
Example empty_chunk_without_minimum :
  map char_count
      (create_chunks {| max_chunk_size := 5; min_chunk_size := 0 |}
                     (lit "A long sentence. Bye.")) = [0; 16; 4].
Proof. vm_compute. reflexivity. Qed.

(** *** Between the first and the last chunk of a section *)


Lemma pack_step_exact self st sentence :
  exact_inv self st -> exact_inv self (pack_step self st sentence).
Proof.
  intros [Hex Hfl]. unfold pack_step.
  destruct (truthy (strip sentence)) eqn:Hs; cbn [negb]; [|done].
  destruct (max_chunk_size self <? _); cbn [andb].
  - destruct (min_chunk_size self <=? current_length st) eqn:Hm.
    + apply Nat.leb_le in Hm. split; cbn [flushed current_chunk current_length].
      * intros _. split; [done|]. done.
      * destruct (flushed st) as [|c cs] eqn:Hf; [constructor|].
        cbn [app drop] in *. rewrite drop_0 in *.
        apply Forall_app. split; [done|]. apply Forall_singleton.
        destruct (Hex ltac:(done)) as [_ <-]. done.
    + split; cbn [flushed current_chunk current_length]; [|done].
      intros Hne. destruct (Hex Hne) as [Hc Hl]. split; [by destruct (current_chunk st)|].
      rewrite length_join_snoc. destruct (current_chunk st); [done|]. cbn [truthy]. lia.
  - split; cbn [flushed current_chunk current_length]; [|done].
    intros Hne. destruct (Hex Hne) as [Hc Hl]. split; [by destruct (current_chunk st)|].
    rewrite length_join_snoc. destruct (current_chunk st); [done|]. cbn [truthy]. lia.
Qed.

Lemma foldl_exact self sentences :
  exact_inv self (foldl (pack_step self) init_state sentences).
Proof.
  apply (foldl_invariant (fun st _ => exact_inv self st)).
  - split; [done | constructor].
  - intros st _ x. apply pack_step_exact.
Qed.

(** X6: of the chunks packed from the sentences of a section, all but the
    first and the last have at least [min_chunk_size] characters: after a
    flush [current_length] is the exact length of the buffer. *)
Theorem interior_chunks_reach_min (self : chunker) (sentences : list str) :
  Forall (fun c => min_chunk_size self <= length c)
         (interior (pack_sentences self sentences)).
Proof.
  unfold pack_sentences, interior.
  destruct (foldl_exact self sentences) as [Hex Hfl].
  destruct (current_chunk _) as [|x l] eqn:Hc; cbn [truthy].
  - destruct (flushed _) as [|c cs] eqn:Hf; [constructor|].
    by destruct (Hex ltac:(done)).
  - rewrite length_app. cbn [length].
    replace (length (flushed (foldl (pack_step self) init_state sentences)) + 1 - 1)
      with (length (flushed (foldl (pack_step self) init_state sentences))) by lia.
    by rewrite take_app_length.
Qed.

(** *** The first chunk of a section *)


Lemma size_ok_first_mono self seen x c :
  size_ok_first self seen c -> size_ok_first self (seen ++ [x]) c.
Proof.
  intros [H | [(p & s & Hs & Hc & Hp) | (s & Hs & Hc)]].
  - by left.
  - right; left. exists p, s. set_solver.
  - right; right. exists s. set_solver.
Qed.

Lemma pack_step_first self st seen sentence :
  first_inv self st seen ->
  first_inv self (pack_step self st sentence) (seen ++ [sentence]).
Proof.
  unfold first_inv, pack_step. intros Hinv.
  destruct (truthy (strip sentence)) eqn:Hs; cbn [negb].
  2:{ destruct (flushed st); [|by apply size_ok_first_mono].
      destruct Hinv as (H1 & H2 & H3). split; [by apply size_ok_first_mono|done]. }
  pose proof (join_snoc [space] (current_chunk st) (strip sentence)) as Hj.
  pose proof (length_join_snoc (current_chunk st) (strip sentence)) as Hl.
  destruct (max_chunk_size self <? current_length st + length (strip sentence)) eqn:Hmax;
    destruct (min_chunk_size self <=? current_length st) eqn:Hmin;
    cbn [andb flushed current_chunk current_length];
    destruct (flushed st) as [|c cs] eqn:Hf; cbn [app];
    try (by apply size_ok_first_mono);
    try (by destruct Hinv as (H1 & _); apply size_ok_first_mono);
    destruct Hinv as (H1 & H2 & H3);
    (split; [|split; [by destruct (current_chunk st)|]]).
  - apply Nat.leb_gt in Hmin.
    destruct (current_chunk st) as [|y l] eqn:Hc; cbn [truthy] in Hj.
    + right; right. exists sentence. rewrite Hj. set_solver.
    + specialize (H3 ltac:(done)). right; left.
      exists (join [space] (y :: l)), sentence. rewrite Hj.
      split; [set_solver|]. split; [done|]. lia.
  - intros _. rewrite Hl.
    destruct (current_chunk st) as [|y l] eqn:Hc; cbn [truthy].
    + rewrite H2 by done. lia.
    + specialize (H3 ltac:(done)). lia.
  - apply Nat.ltb_ge in Hmax. left. rewrite Hl.
    destruct (current_chunk st) as [|y l] eqn:Hc; cbn [truthy].
    + rewrite H2 in Hmax by done. lia.
    + specialize (H3 ltac:(done)). lia.
  - intros _. rewrite Hl.
    destruct (current_chunk st) as [|y l] eqn:Hc; cbn [truthy].
    + rewrite H2 by done. lia.
    + specialize (H3 ltac:(done)). lia.
  - apply Nat.ltb_ge in Hmax. left. rewrite Hl.
    destruct (current_chunk st) as [|y l] eqn:Hc; cbn [truthy].
    + rewrite H2 in Hmax by done. lia.
    + specialize (H3 ltac:(done)). lia.
  - intros _. rewrite Hl.
    destruct (current_chunk st) as [|y l] eqn:Hc; cbn [truthy].
    + rewrite H2 by done. lia.
    + specialize (H3 ltac:(done)). lia.
Qed.

Lemma pack_sentences_first self sentences c :
  head (pack_sentences self sentences) = Some c ->
  size_ok_first self sentences c.
Proof.
  unfold pack_sentences.
  assert (Hinv : first_inv self (foldl (pack_step self) init_state sentences) sentences).
  { apply (foldl_invariant (first_inv self)).
    - split; [left; simpl; lia | done].
    - intros st seen x. apply pack_step_first. }
  unfold first_inv in Hinv.
  destruct (flushed _) as [|c0 cs] eqn:Hf.
  - destruct Hinv as (H1 & _).
    destruct (truthy (current_chunk _)); cbn; [|done]. by intros [= <-].
  - destruct (truthy (current_chunk _)); cbn; by intros [= <-].
Qed.

(** X7: the first chunk of a section has at most [max_chunk_size]
    characters, unless it is one whole sentence or its last sentence was
    appended to a buffer still shorter than [min_chunk_size]. *)
Theorem first_chunk_within_max (self : chunker) (section_text c : str) :
  head (section_contents self section_text) = Some c ->
  size_ok_first self (re_split_sentences section_text) c.
Proof.
  unfold section_contents.
  destruct (length section_text <=? max_chunk_size self) eqn:Hsmall.
  - apply Nat.leb_le in Hsmall. cbn. intros [= <-]. by left.
  - apply pack_sentences_first.
Qed.

Lemma first_chunk_within_max_witness :
  head (section_contents default_chunker by_one_text) =
    Some (letters 399 "a" ++ lit ".") /\
  size_ok_first default_chunker (re_split_sentences by_one_text)
                (letters 399 "a" ++ lit ".").
Proof.
  assert (H : head (section_contents default_chunker by_one_text) =
              Some (letters 399 "a" ++ lit ".")) by (vm_compute; reflexivity).
  split; [exact H|].
  exact (first_chunk_within_max default_chunker by_one_text _ H).
Defined.

(** *** The extracted name *)



Lemma span_spec p s :
  s = (span p s).1 ++ (span p s).2 /\ Forall (fun c => p c = true) (span p s).1.
Proof.
  induction s as [|c s [IH1 IH2]]; [by split; [|constructor]|].
  cbn [span]. destruct (p c) eqn:Hc; [|by split; [|constructor]].
  destruct (span p s) as [a b]. cbn [fst snd] in *. split.
  - by rewrite IH1 at 1.
  - by constructor.
Qed.

Lemma az_run_shape n :
  truthy n = true -> Forall (fun c => is_az c = true) n ->
  Forall az_or_space n /\ (exists c n', n = c :: n' /\ is_az c = true) /\
  exists d, last n = Some d /\ is_az d = true.
Proof.
  intros Hne Haz. split; [|split].
  - eapply Forall_impl; [exact Haz|]. intros c Hc. by left.
  - destruct n as [|c n']; [done|]. exists c, n'.
    by apply Forall_cons in Haz as [? _].
  - induction n as [|c n' _] using rev_ind; [done|]. exists c.
    rewrite last_snoc. apply Forall_app in Haz as [_ Hc].
    rewrite Forall_singleton in Hc. by split.
Qed.

Lemma spaces_az_or_space ws :
  Forall (fun c => isspace c = true) ws -> Forall az_or_space ws.
Proof. intros H. eapply Forall_impl; [exact H|]. intros c Hc. by right. Qed.

Lemma tail_shape_app a t :
  Forall az_or_space a -> (exists d, last a = Some d /\ is_az d = true) ->
  tail_shape t ->
  Forall az_or_space (a ++ t) /\ exists d, last (a ++ t) = Some d /\ is_az d = true.
Proof.
  intros Ha Hd [-> | [Ht (d & Hl & Hd')]].
  - by rewrite app_nil_r.
  - split; [by apply Forall_app|]. exists d. by rewrite last_app, Hl.
Qed.

Lemma opt_third_shape s : tail_shape (opt_third s).
Proof.
  unfold opt_third.
  destruct (span_spec isspace s) as [_ Hws].
  destruct (span isspace s) as [ws r]. cbn [fst snd] in *.
  destruct (span_spec is_az r) as [_ Hn].
  destruct (span is_az r) as [n r']. cbn [fst snd] in *.
  destruct (truthy ws && truthy n) eqn:Ht; [|by left].
  apply andb_prop in Ht as [_ Hne].
  destruct (az_run_shape n Hne Hn) as (H1 & _ & d & Hl & Hd).
  right. split; [apply Forall_app; split; [by apply spaces_az_or_space | done]|].
  exists d. by rewrite last_app, Hl.
Qed.

Lemma lit_bint_az : Forall az_or_space (lit "bint").
Proof. repeat constructor. Qed.

Lemma opt_bint_shape s : tail_shape (opt_bint s).
Proof.
  unfold opt_bint.
  destruct (span_spec isspace s) as [_ Hws].
  destruct (span isspace s) as [ws r]. cbn [fst snd] in *.
  destruct (truthy ws && startswith r (lit "bint")); [|by left].
  destruct (span_spec isspace (drop 4 r)) as [_ Hws'].
  destruct (span isspace (drop 4 r)) as [ws' r']. cbn [fst snd] in *.
  destruct (span_spec is_az r') as [_ Hn].
  destruct (span is_az r') as [n r'']. cbn [fst snd] in *.
  destruct (truthy ws' && truthy n) eqn:Ht; [|by left].
  apply andb_prop in Ht as [_ Hne].
  destruct (az_run_shape n Hne Hn) as (H1 & _ & Hd).
  destruct (tail_shape_app n (opt_third r'') H1 Hd (opt_third_shape r''))
    as [Hall (d & Hl & Hdz)].
  right. split.
  - apply Forall_app. split; [by apply spaces_az_or_space|].
    apply Forall_app. split; [apply lit_bint_az|].
    apply Forall_app. split; [by apply spaces_az_or_space | done].
  - exists d.
    rewrite (last_app ws), (last_app (lit "bint")), (last_app ws'), Hl. done.
Qed.

Lemma match_name_at_shape s n : match_name_at s = Some n -> name_shape n.
Proof.
  unfold match_name_at. destruct (startswith s _); [|done].
  destruct (span_spec isspace (drop 14 s)) as [_ Hws].
  destruct (span isspace (drop 14 s)) as [ws r]. cbn [fst snd] in *.
  destruct (span_spec is_az r) as [_ Hn].
  destruct (span is_az r) as [n1 r']. cbn [fst snd] in *.
  destruct (truthy ws && truthy n1) eqn:Ht; [|done].
  apply andb_prop in Ht as [_ Hne]. intros [= <-].
  destruct (az_run_shape n1 Hne Hn) as (H1 & (c & n' & -> & Hc) & Hd).
  destruct (tail_shape_app _ (opt_bint r') H1 Hd (opt_bint_shape r')) as [Hall Hlast].
  split; [|done]. by exists c, (n' ++ opt_bint r').
Qed.

Lemma search_name_shape s n : search_name s = Some n -> name_shape n.
Proof.
  induction s as [|c s IH]; cbn [search_name].
  - destruct (match_name_at []) eqn:Hm; [|done].
    intros [= <-]. by apply (match_name_at_shape []).
  - destruct (match_name_at (c :: s)) eqn:Hm; [|exact IH].
    intros [= <-]. by apply (match_name_at_shape (c :: s)).
Qed.

(** X8: a name found by the name pattern starts and ends with a letter of
    [a-z] and holds only such letters and whitespace (it is never
    empty). *)
Theorem extracted_name_shape (s n : str) :
  search_name s = Some n -> name_shape n.
Proof. apply search_name_shape. Qed.

Lemma extracted_name_shape_witness :
  search_name (lower chapter_text) = Some (lit "hafsah bint umar was") /\
  name_shape (lit "hafsah bint umar was").
Proof.
  assert (H : search_name (lower chapter_text) = Some (lit "hafsah bint umar was"))
    by (vm_compute; reflexivity).
  split; [exact H|]. exact (extracted_name_shape _ _ H).
Defined.

(** *** The accepted aliases *)

Lemma try_down_some {A} (f : nat -> option A) lo n a :
  try_down f lo n = Some a -> exists k, k <= n /\ f k = Some a.
Proof.
  induction n as [|n IH]; cbn [try_down].
  - destruct (0 <? lo); [done|]. destruct (f 0) eqn:Hf; [|done].
    intros [= <-]. by exists 0.
  - destruct (S n <? lo); [done|]. destruct (f (S n)) eqn:Hf.
    + intros [= <-]. by exists (S n).
    + intros H. destruct (IH H) as (k & Hk & Hfk). exists k. split; [lia | done].
Qed.

Lemma is_az_space_or c : is_az_space c = true -> az_or_space c.
Proof. unfold is_az_space. intros H. apply orb_prop in H. exact H. Qed.

Lemma match_alias_at_group phrase s g n :
  match_alias_at phrase s = Some (g, n) -> Forall az_or_space g.
Proof.
  unfold match_alias_at. destruct (startswith s phrase); [|done].
  intros H. apply try_down_some in H as (j & _ & H).
  apply try_down_some in H as (k & Hk & H).
  destruct (match_terminator _); [|done]. injection H as <- _.
  destruct (span_spec is_az_space (drop j (drop (length phrase) s))) as [Hs Hall].
  rewrite Hs, take_app_le by lia. apply Forall_take.
  eapply Forall_impl; [exact Hall|]. intros c. apply is_az_space_or.
Qed.

Lemma findall_from_groups phrase s : forall skip,
  Forall (Forall az_or_space) (findall_from phrase skip s).
Proof.
  induction s as [|c s IH]; intros skip; [constructor|]. cbn [findall_from].
  destruct skip; [|apply IH].
  destruct (match_alias_at phrase (c :: s)) as [[g n]|] eqn:Hm; [|apply IH].
  constructor; [by eapply match_alias_at_group | apply IH].
Qed.

Lemma alias_candidates_chars text :
  Forall (Forall az_or_space) (alias_candidates text).
Proof.
  unfold alias_candidates. apply Forall_forall. intros m Hm.
  apply list_elem_of_In, in_flat_map in Hm as (phrase & _ & Hm).
  apply list_elem_of_In in Hm.
  pose proof (findall_from_groups phrase (lower text) 0) as Hall.
  rewrite Forall_forall in Hall. by apply Hall.
Qed.

Lemma Forall_lstrip (P : ascii -> Prop) s : Forall P s -> Forall P (lstrip s).
Proof.
  induction 1 as [|c s Hc Hs IH]; [constructor|]. cbn [lstrip].
  destruct (isspace c); [done | by constructor].
Qed.

Lemma Forall_strip (P : ascii -> Prop) s : Forall P s -> Forall P (strip s).
Proof.
  intros H. unfold strip, rstrip. apply Forall_reverse, Forall_lstrip.
  by apply Forall_reverse, Forall_lstrip.
Qed.

Lemma title_char c :
  is_az c = true ->
  is_cased c = true /\ isalpha (upper_char c) = true /\
  isalpha (lower_char c) = true.
Proof.
  destruct c as [[] [] [] [] [] [] [] []]; vm_compute; intros H;
    (discriminate H || done).
Qed.

Lemma space_not_cased c : isspace c = true -> is_cased c = false.
Proof.
  destruct c as [[] [] [] [] [] [] [] []]; vm_compute; intros H;
    (discriminate H || done).
Qed.

Lemma title_from_shape s : forall b,
  Forall az_or_space s ->
  length (title_from b s) = length s /\ Forall letter_or_space (title_from b s).
Proof.
  induction s as [|c s IH]; intros b Hs; [by split; [|constructor]|].
  apply Forall_cons in Hs as [Hc Hs]. cbn [title_from].
  destruct Hc as [Hc | Hc].
  - destruct (title_char c Hc) as (-> & Hu & Hl).
    destruct (IH true Hs) as [Hlen Hall]. split; [cbn; by rewrite Hlen|].
    constructor; [|done]. left. by destruct b.
  - rewrite (space_not_cased c Hc).
    destruct (IH false Hs) as [Hlen Hall]. split; [cbn; by rewrite Hlen|].
    constructor; [by right | done].
Qed.

(** X9: every alias returned by [extract_wife_info] has between 3 and 20
    characters, each of them a letter or whitespace. *)
Theorem aliases_shape (text : str) :
  Forall (fun a => 3 <= length a <= 20 /\ Forall letter_or_space a)
         (info_aliases (extract_wife_info text)).
Proof.
  unfold extract_wife_info. cbn [info_aliases]. apply Forall_forall.
  intros a Ha. rewrite elem_of_elements, elem_of_list_to_set in Ha.
  apply filter_aliases_spec in Ha as (m & Hm & -> & Hlen & _).
  pose proof (alias_candidates_chars text) as Hall.
  rewrite Forall_forall in Hall.
  destruct (title_from_shape (strip m) false (Forall_strip _ _ (Hall m Hm)))
    as [Hl Hs].
  unfold title. rewrite Hl. done.
Qed.

(** *** Name and aliases of a chapter *)

Lemma title_matched_name s n : search_name s = Some n -> title n <> [].
Proof.
  intros H. apply search_name_shape in H as ((c & n' & -> & _) & _).
  unfold title. cbn [title_from]. by destruct (is_cased c).
Qed.

(** X10: all chunks of a chapter carry the same name and the same aliases:
    the name is the title-cased match of the name pattern in the
    lowercased chapter when the pattern matches, and "Unknown" when it
    matches nowhere; it is never empty. *)
Theorem chapter_metadata_shared (self : chunker) (chapter_text : str) :
  let name :=
    match search_name (lower chapter_text) with
    | Some n => title n
    | None => lit "Unknown"
    end in
  name <> [] /\
  Forall (fun c => wife_name c = name /\
                   aliases c = info_aliases (extract_wife_info chapter_text))
         (create_chunks self chapter_text).
Proof.
  cbn zeta. split.
  - destruct (search_name (lower chapter_text)) as [n|] eqn:Hn; [|done].
    by apply (title_matched_name (lower chapter_text)).
  - unfold create_chunks. apply Forall_forall. intros c Hc.
    apply list_elem_of_In, in_flat_map in Hc as (sec & _ & Hc).
    unfold chunk_section in Hc. apply in_map_iff in Hc as (t & <- & _).
    split; [|done]. unfold extract_wife_info. cbn.
    destruct (search_name (lower chapter_text)) as [n|] eqn:Hn; cbn; [|done].
    pose proof (title_matched_name _ _ Hn) as Ht. by destruct (title n).
Qed.

(** *** The correction pass *)

(** X11: the correction pass keeps the number and order of the chunks and,
    in each, the content, the aliases and the character count; a chunk
    whose name is neither "Umm" nor "Unknown" is not touched at all; a
    section label changes only to "Conclusion", together with the name. *)
Theorem post_process_keeps (all_chunks : list chunk) :
  Forall2 (fun c c' =>
             content c' = content c /\ aliases c' = aliases c /\
             char_count c' = char_count c /\
             (placeholder_name (wife_name c) = false -> c' = c) /\
             (section c' = section c \/
              (section c' = lit "Conclusion" /\ wife_name c' = lit "Conclusion")))
          all_chunks (post_process all_chunks).
Proof.
  unfold post_process. induction all_chunks as [|c l IH]; [constructor|].
  cbn [map]. constructor; [|exact IH]. unfold fix_chunk, placeholder_name.
  destruct (str_eqb (wife_name c) (lit "Umm") ||
            str_eqb (wife_name c) (lit "Unknown")).
  - repeat case_match; cbn; repeat split; try done;
      ((by left) || (by right)).
  - repeat split; try done. by left.
Qed.


Lemma fix_chunk_unresolved c :
  placeholder_name (wife_name (fix_chunk c)) =
  placeholder_name (wife_name c) && no_keyword c.
Proof.
  unfold fix_chunk, no_keyword. fold (placeholder_name (wife_name c)).
  destruct (placeholder_name (wife_name c)) eqn:Hp; [|by rewrite Hp].
  repeat case_match; cbn; try done; by rewrite Hp.
Qed.

(** X12: after the correction pass a chunk still has one of the names
    "Umm" / "Unknown" exactly when it had one before and its lowercased
    content holds none of "umm salamah", "umm habibah", "conclusion". *)
Theorem post_process_unresolved (all_chunks : list chunk) :
  Forall2 (fun c c' =>
             placeholder_name (wife_name c') =
             placeholder_name (wife_name c) && no_keyword c)
          all_chunks (post_process all_chunks).
Proof.
  unfold post_process. induction all_chunks as [|c l IH]; [constructor|].
  cbn [map]. constructor; [apply fix_chunk_unresolved | exact IH].
Qed.

(** *** The statistics *)

Lemma counted_step (counts : gmap str nat) k :
  counted (<[k := default 0 (counts !! k) + 1]> counts) = counted counts + 1.
Proof.
  unfold counted.
  assert (Hcomm : forall (m : gmap str nat) (j1 j2 : str) (z1 z2 y : nat),
            j1 <> j2 -> m !! j1 = Some z1 -> m !! j2 = Some z2 ->
            z1 + (z2 + y) = z2 + (z1 + y)) by (intros; lia).
  destruct (counts !! k) as [n|] eqn:Hk; cbn [default].
  - pose proof (map_fold_delete_L (fun _ n acc => n + acc) 0 k n counts
                  (Hcomm counts) Hk) as Hd.
    pose proof (map_fold_insert_L (fun _ n acc => n + acc) 0 k (n + 1)
                  (delete k counts) (Hcomm _) (lookup_delete_eq counts k)) as Hi.
    rewrite insert_delete_eq in Hi. cbn beta in Hd. unfold id. lia.
  - rewrite map_fold_insert_L; [lia|apply Hcomm|done].
Qed.

Lemma count_chunk_lookup counts c name :
  count_chunk counts c !! name =
  if bool_decide (wife_name c = name)
  then Some (default 0 (counts !! name) + 1) else counts !! name.
Proof.
  unfold count_chunk. case_bool_decide as Hn.
  - subst name. by rewrite lookup_insert_eq.
  - by rewrite lookup_insert_ne.
Qed.

(** X13: after the recount, [wife_chunk_counts] maps every name carried by
    some chunk to the number of chunks that carry it, holds no other name,
    and its values add up to the number of chunks. *)
Theorem wife_chunk_counts_correct (all_chunks : list chunk) :
  (forall name,
      wife_chunk_counts all_chunks !! name =
      let n := length (filter (fun c => wife_name c = name) all_chunks) in
      if n =? 0 then None else Some n) /\
  counted (wife_chunk_counts all_chunks) = length all_chunks.
Proof.
  unfold wife_chunk_counts.
  apply (foldl_invariant (fun counts seen =>
           (forall name,
               counts !! name =
               let n := length (filter (fun c => wife_name c = name) seen) in
               if n =? 0 then None else Some n) /\
           counted counts = length seen)).
  - split; [|done]. intros name. by rewrite lookup_empty.
  - intros counts seen c [Hn Ht]. split.
    + intros name. cbn zeta. rewrite count_chunk_lookup, filter_app, length_app.
      specialize (Hn name). cbn zeta in Hn. rewrite Hn.
      case_bool_decide.
      * rewrite filter_cons_True by done.
        change (filter (fun c0 : chunk => wife_name c0 = name) []) with (@nil chunk).
        cbn [length].
        destruct (length (filter _ seen)) as [|k]; cbn; reflexivity.
      * rewrite filter_cons_False by done.
        change (filter (fun c0 : chunk => wife_name c0 = name) []) with (@nil chunk).
        cbn [length]. by rewrite Nat.add_0_r.
    + unfold count_chunk. rewrite counted_step, Ht, length_app. done.
Qed.

(** X14: the three size classes of the report (under 500, 500 to 799,
    800 and more characters) count every chunk exactly once. *)
Theorem size_classes_partition (all_chunks : list chunk) :
  small_chunks all_chunks + medium_chunks all_chunks + large_chunks all_chunks =
  length all_chunks.
Proof.
  unfold small_chunks, medium_chunks, large_chunks.
  induction all_chunks as [|c l IH]; [done|]. cbn [sum_list_with length].
  destruct (char_count c <? 500) eqn:H1; destruct (500 <=? char_count c) eqn:H2;
    destruct (char_count c <? 800) eqn:H3; destruct (800 <=? char_count c) eqn:H4;
    cbn [andb];
    rewrite ?Nat.ltb_lt, ?Nat.ltb_ge, ?Nat.leb_le, ?Nat.leb_gt in *; lia.
Qed.

Lemma fixed_or_unresolved c :
  (if placeholder_name (wife_name c) then 1 else 0) =
  (if is_fixed c then 1 else 0) +
  (if placeholder_name (wife_name (fix_chunk c)) then 1 else 0).
Proof.
  rewrite fix_chunk_unresolved. unfold is_fixed, no_keyword.
  fold (placeholder_name (wife_name c)).
  destruct (placeholder_name (wife_name c)); [|done].
  repeat case_match; done.
Qed.

(** X15: every chunk that enters the correction pass with one of the
    names "Umm" / "Unknown" is either counted in [fixed_count] or still
    has such a name afterwards, never both. *)
Theorem fixed_count_accounts (all_chunks : list chunk) :
  placeholder_chunks all_chunks =
  fixed_count all_chunks + placeholder_chunks (post_process all_chunks).
Proof.
  unfold placeholder_chunks, fixed_count, post_process.
  induction all_chunks as [|c l IH]; [done|]. cbn [sum_list_with map].
  rewrite IH, (fixed_or_unresolved c). lia.
Qed.

End ChunkExtras.

(** ** Chunk sizes, section by section *)

Module ChunkSizes.

Import Chunk Scenarios Shapes TextLemmas ChunkTheory ChunkExtras.

(** A section of a chapter gives at least one chunk. *)
Lemma section_contents_some self text sec :
  sec ∈ split_into_sections text ->
  section_contents self (join [space] (sec_content sec)) <> [].
Proof.
  intros Hsec Hnil.
  pose proof (sections_worded text) as Hall. rewrite Forall_forall in Hall.
  destruct (Hall sec Hsec) as [Hne Hw].
  apply (join_worded (sec_content sec) Hne Hw).
  by rewrite <- (section_contents_tokens self), Hnil.
Qed.

(** C2, amended: the chunks of a chapter are those of its sections, in
    order, each under the title of its section.  A section whose joined
    text has at most [max_chunk_size] characters becomes exactly one chunk,
    with that text.  A longer section gives at least one chunk, and its
    first chunk has at most [max_chunk_size] characters unless it is one
    whole sentence, or its last sentence was appended to a buffer still
    shorter than [min_chunk_size] (the flush needs
    [current_length >= min_chunk_size]), whether or not the chunk is the
    last one of its section. *)
Theorem chunk_size_bound (self : chunker) (chapter_text : str) :
  let info := extract_wife_info chapter_text in
  let sections := split_into_sections chapter_text in
  create_chunks self chapter_text = flat_map (chunk_section self info) sections /\
  Forall (fun sec =>
    let section_text := join [space] (sec_content sec) in
    Forall (fun c => section c = sec_title sec) (chunk_section self info sec) /\
    (length section_text <= max_chunk_size self ->
     chunk_section self info sec =
     [make_chunk info (sec_title sec) section_text]) /\
    (max_chunk_size self < length section_text ->
     exists c rest,
       chunk_section self info sec = c :: rest /\
       size_ok_first self (re_split_sentences section_text) (content c)))
    sections.
Proof.
  cbn zeta. split; [reflexivity|]. apply Forall_forall. intros sec Hsec.
  split; [|split].
  - unfold chunk_section. apply Forall_forall. intros c Hc.
    apply list_elem_of_In, in_map_iff in Hc as (t & <- & _). done.
  - intros Hsmall. unfold chunk_section, section_contents.
    apply Nat.leb_le in Hsmall. by rewrite Hsmall.
  - intros Hlarge.
    pose proof (section_contents_some self chapter_text sec Hsec) as Hne.
    unfold chunk_section.
    destruct (section_contents self (join [space] (sec_content sec)))
      as [|t ts] eqn:Hc; [done|].
    eexists _, _. split; [reflexivity|]. cbn [content make_chunk].
    unfold section_contents in Hc. apply Nat.leb_gt in Hlarge.
    rewrite Hlarge in Hc. apply pack_sentences_first. by rewrite Hc.
Qed.

(** The oversized section of [over_max_text]: its first chunk has 901
    characters, its last sentence appended to a buffer of 300. *)
Example over_max_first_chunk :
  map length (section_contents default_chunker over_max_text) = [901; 10].
Proof. vm_compute. reflexivity. Qed.

End ChunkSizes.

(** ** The retrieval engine *)

Module RetrievalExtras.

Import Retrieval Scenarios Shapes MoreScenarios TextLemmas RetrievalTheory.

(** X16: for any [argsort] that meets its specification, the selected ids
    are pairwise distinct and are positions of the table: no chunk is
    returned twice, and no id is out of range. *)
Theorem top_indices_distinct (w : services) (similarities : list Q) :
  argsort_spec (argsort w) ->
  NoDup (top_indices w similarities) /\
  Forall (fun i => i < length similarities) (top_indices w similarities).
Proof.
  intros Hsort. split.
  - by apply top_indices_nodup.
  - apply Forall_forall. intros i. by apply top_indices_bound.
Qed.

Lemma top_indices_distinct_witness :
  argsort_spec (argsort answering_services) /\
  NoDup (top_indices answering_services [0%Q; 1%Q; 0%Q; 1%Q]) /\
  Forall (fun i => i < 4) (top_indices answering_services [0%Q; 1%Q; 0%Q; 1%Q]).
Proof.
  split; [exact stable_argsort_spec|].
  exact (top_indices_distinct answering_services [0%Q; 1%Q; 0%Q; 1%Q]
           stable_argsort_spec).
Defined.

(** X17: for any [argsort] that meets its specification, the first id
    selected has the highest similarity of all stored chunks. *)
Theorem best_chunk_first (w : services) (similarities : list Q) (i : nat) :
  argsort_spec (argsort w) ->
  head (top_indices w similarities) = Some i ->
  exists si, similarities !! i = Some si /\
             Forall (fun sj => (sj <= si)%Q) similarities.
Proof.
  intros Hsort Hhead. apply head_Some in Hhead as [rest Htop].
  assert (Hin : i ∈ top_indices w similarities) by (rewrite Htop; left).
  destruct (lookup_lt_is_Some_2 similarities i
              (top_indices_bound w Hsort _ _ Hin)) as [si Hsi].
  exists si. split; [done|]. apply Forall_forall. intros sj Hsj.
  apply list_elem_of_lookup in Hsj as [j Hj].
  destruct (decide (j = i)) as [-> | Hne].
  { rewrite Hsi in Hj. injection Hj as <-. apply Qle_refl. }
  apply (ascending_le similarities i j); [|done|done].
  destruct (decide (j ∈ top_indices w similarities)) as [Hjin | Hjout].
  - pose proof (top_indices_sorted w Hsort similarities) as Hs.
    rewrite Htop in Hs, Hjin. apply StronglySorted_inv in Hs as [_ Hall].
    rewrite Forall_forall in Hall. apply Hall.
    apply elem_of_cons in Hjin as [? | ?]; [done | done].
  - apply (top_indices_select w Hsort); [done | by eapply lookup_lt_Some | done].
Qed.

Lemma best_chunk_first_witness :
  argsort_spec (argsort answering_services) /\
  head (top_indices answering_services [0%Q; 1%Q; 0%Q]) = Some 1 /\
  exists si, [0%Q; 1%Q; 0%Q] !! 1 = Some si /\
             Forall (fun sj => (sj <= si)%Q) [0%Q; 1%Q; 0%Q].
Proof.
  assert (H : head (top_indices answering_services [0%Q; 1%Q; 0%Q]) = Some 1)
    by (vm_compute; reflexivity).
  split; [exact stable_argsort_spec|]. split; [exact H|].
  exact (best_chunk_first answering_services _ _ stable_argsort_spec H).
Defined.

(** X18: a reply of the embedding service that is an object without the
    "embeddings" field, or with an empty list in it, is not caught: the
    query raises [KeyError], respectively [IndexError], where a failed
    request gives the "Failed to create embedding" text; and a vector that
    came back raises [ValueError] when the table has no row or a stored
    vector has another dimension.  In all three cases the generation
    service is not called. *)
Theorem malformed_reply_raises (w : services) (df : list (row w)) (q : str) :
  let r := run_query w (Some df) q in
  (post_embed w [q] = Json None -> r = (Raised KeyError, [EmbedCall [q]])) /\
  (post_embed w [q] = Json (Some []) ->
   r = (Raised IndexError, [EmbedCall [q]])) /\
  (forall v vs, post_embed w [q] = Json (Some (v :: vs)) ->
                df = [] \/ similarities_of w df v = None ->
                r = (Raised ValueError, [EmbedCall [q]])).
Proof.
  cbn zeta. rewrite run_query_unfold. split; [|split].
  - intros ->. reflexivity.
  - intros ->. reflexivity.
  - intros v vs -> [-> | Hs]; [reflexivity|].
    destruct df as [|r df]; [reflexivity|]. by rewrite Hs.
Qed.

Lemma malformed_reply_raises_witness :
  run_query sized_services (Some short_vector_rows) (lit "Who was Hafsah?")
  = (Raised ValueError, [EmbedCall [lit "Who was Hafsah?"]]).
Proof.
  apply (proj2 (proj2 (malformed_reply_raises sized_services
           short_vector_rows (lit "Who was Hafsah?"))) (1024, 0) []).
  - reflexivity.
  - right. reflexivity.
Defined.



End RetrievalExtras.

(** ** The front end *)

Module BotExtras.

Import Bot Scenarios TextLemmas BotTheory.

(** X21: for a response longer than [MAX_CHARS], every message sent but
    the last is a full slice of [MAX_CHARS] characters after its header
    line, so it is longer than [MAX_CHARS]. *)
Theorem long_messages_exceed_limit (response_text m : str) (i : nat) :
  MAX_CHARS < length response_text ->
  send_response response_text !! i = Some m ->
  i + 1 < length (send_response response_text) ->
  length m =
    length (part_header (length (send_response response_text)) i) + 1 + MAX_CHARS /\
  MAX_CHARS < length m.
Proof.
  intros Hlong Hm Hi. unfold send_response in *.
  apply Nat.ltb_lt in Hlong as Hb. rewrite Hb in *.
  rewrite length_imap in *. rewrite response_chunks_length in Hi.
  apply list_lookup_imap_Some in Hm as (chunk & Hc & ->).
  assert (Hlen : length chunk = MAX_CHARS).
  { unfold response_chunks, range_step in Hc.
    rewrite list_lookup_fmap in Hc.
    destruct (_ !! i) as [start|] eqn:Hs; [|done]. injection Hc as <-.
    rewrite list_lookup_fmap in Hs.
    destruct (seq 0 _ !! i) as [j|] eqn:Hj; [|done]. injection Hs as <-.
    apply lookup_seq in Hj as [-> _]. unfold slice, MAX_CHARS in *.
    rewrite length_take, length_drop.
    pose proof (Nat.div_mod_eq (length response_text + 1999) 2000).
    pose proof (Nat.mod_upper_bound (length response_text + 1999) 2000). lia. }
  rewrite part_message_header, !length_app, Hlen. cbn [length]. lia.
Qed.

Lemma long_messages_exceed_limit_witness :
  MAX_CHARS < length (letters 4001 "a") /\
  MAX_CHARS < length (lit "**[Detailed Response - Part 1/3]**" ++ [nl] ++
                      letters 2000 "a").
Proof.
  assert (H1 : MAX_CHARS < length (letters 4001 "a")) by (vm_compute; lia).
  split; [exact H1|].
  apply (long_messages_exceed_limit (letters 4001 "a") _ 0 H1).
  - vm_compute. reflexivity.
  - vm_compute. lia.
Defined.

End BotExtras.
